(** * Tick-driven position and risk engine (data-science.py)

    A shallow embedding of the classes [Position], [StrategyManager],
    [PortfolioEvaluator] and [ExecutionSimulator], and the properties of
    the per-tick pipeline.

    Modelling choices.
    - Python numbers are exact rationals [Q]; comparisons are the numeric
      ones ([Qcompare]), so two representations of a number compare equal.
      The rounding of doubles, their infinities and NaN are not modelled.
    - The risk settings are the content of the dict at the time of a
      call; an evaluator over other settings is another state.
    - A [Position] is a mutable object.  Objects live in a heap (a list,
      the index being the identity of the object); [active_positions] and
      the trade history hold references, so a mutation is seen through
      every alias.
    - A tick is a dict read at the keys [symbol], [price] and [timestamp];
      an absent key is [None].
    - A dict whose iteration order matters (the strategy registry, the
      per-symbol groups) is an insertion-ordered association list.
    - Mutation and exceptions are threaded by a state-and-exception monad
      in which the state survives a raised exception, as in Python.
    - A strategy is a function of the tick and of the positions it is
      handed: it returns a signal, returns [None] or raises, and it does
      not mutate what it reads. *)

From Stdlib Require Import ZArith QArith Qminmax Lia.
From stdpp Require Import base option list gmap strings.

Open Scope string_scope.
Open Scope list_scope.

(** ** Numbers *)

(** [a < b] on Python numbers. *)
Definition Qltb (a b : Q) : bool :=
  match (a ?= b)%Q with Lt => true | _ => false end.

(** [a == b] on Python numbers. *)
Definition Qeqb (a b : Q) : bool :=
  match (a ?= b)%Q with Eq => true | _ => false end.

(** The builtin [sum]: starts from 0 and adds from the left. *)
Definition pysum (l : list Q) : Q := fold_left Qplus l 0%Q.

(** ** Data model *)

(** Object identity of a position: its index in the heap. *)
Abbreviation ref := nat.

(** The dataclass [Position] (nine fields), followed by the three
    attributes that [_close_position] attaches to the object. *)
Record Position := mkPosition {
  symbol : string;
  entry_price : Q;
  entry_time : Z;
  direction : Z;
  size : Q;
  strategy_id : string;
  current_price : option Q;
  max_favorable_excursion : Q;
  max_adverse_excursion : Q;
  exit_price : option Q;
  exit_time : option Z;
  exit_reason : option string
}.

Record Tick := mkTick {
  tick_symbol : option string;
  tick_price : option Q;
  tick_timestamp : option Z
}.

(** A signal is a dict with the keys [action] and [size]; as a non-empty
    dict it is true in a condition, and [None] is false. *)
Record Signal := mkSignal {
  sig_action : string;
  sig_size : Q
}.

Inductive exn :=
  | ValueError (msg : string)
  | KeyError (key : string)
  | TypeError
  | StrategyFailure (msg : string).

Inductive result (A : Type) :=
  | Ok (a : A)
  | Raise (e : exn).
Arguments Ok {A} a.
Arguments Raise {A} e.

(** A strategy callable: given the tick and the positions of the
    strategy, it returns a signal, returns [None], or raises. *)
Definition strategy_func := Tick -> list Position -> result (option Signal).

(** An entry of [trade_history]. *)
Record Trade := mkTrade {
  tr_action : string;
  tr_timestamp : Z;
  tr_position : ref;
  tr_reason : option string
}.

Record StrategyManager := mkStrategyManager {
  strategies : list (string * strategy_func);
  active_positions : list ref
}.

Record PortfolioEvaluator := mkPortfolioEvaluator {
  risk_settings : gmap string Q
}.

(** The simulator together with the objects it reaches: the heap of
    position objects, the strategy manager it shares with the portfolio
    evaluator, and the trade history. *)
Record ExecutionSimulator := mkExecutionSimulator {
  heap : list Position;
  strategy_manager : StrategyManager;
  portfolio_evaluator : PortfolioEvaluator;
  trade_history : list Trade
}.

Record Metrics := mkMetrics {
  total_positions : nat;
  net_exposure : Q;
  total_profit_loss : Q;
  max_drawdown : Q;
  strategy_correlation : list (string * Q)
}.

(** ** Insertion-ordered dicts *)

Section Dict.
Context {V : Type}.

(** [k in d] *)
Fixpoint dict_in (k : string) (d : list (string * V)) : bool :=
  match d with
  | [] => false
  | (k', _) :: d' => if String.eqb k' k then true else dict_in k d'
  end.

(** [d[k] = v]: an existing key keeps its slot, a new key goes last. *)
Fixpoint dict_set (k : string) (v : V) (d : list (string * V)) : list (string * V) :=
  match d with
  | [] => [(k, v)]
  | (k', v') :: d' =>
      if String.eqb k' k then (k', v) :: d' else (k', v') :: dict_set k v d'
  end.

(** [d.get(k)] *)
Fixpoint dict_get (k : string) (d : list (string * V)) : option V :=
  match d with
  | [] => None
  | (k', v') :: d' => if String.eqb k' k then Some v' else dict_get k d'
  end.
End Dict.

(** ** The state-and-exception monad *)

Definition M (A : Type) : Type :=
  ExecutionSimulator -> result A * ExecutionSimulator.

Definition ret {A} (a : A) : M A := fun s => (Ok a, s).
Definition raise {A} (e : exn) : M A := fun s => (Raise e, s).
Definition bind {A B} (m : M A) (f : A -> M B) : M B :=
  fun s =>
    match m s with
    | (Ok a, s') => f a s'
    | (Raise e, s') => (Raise e, s')
    end.
Definition gets {A} (f : ExecutionSimulator -> A) : M A := fun s => (Ok (f s), s).
Definition modify (f : ExecutionSimulator -> ExecutionSimulator) : M unit :=
  fun s => (Ok tt, f s).
Definition lift {A} (r : result A) : M A := fun s => (r, s).

Declare Scope py_scope.
Delimit Scope py_scope with py.
Notation "'let!' x ':=' m 'in' k" := (bind m (fun x => k))
  (at level 10, x name, m at level 100, k at level 200, only parsing) : py_scope.
Notation "'run!' m 'in' k" := (bind m (fun _ => k))
  (at level 10, m at level 100, k at level 200, only parsing) : py_scope.
Open Scope py_scope.

(** [for x in l: body(x)] *)
Fixpoint for_each {A} (l : list A) (body : A -> M unit) : M unit :=
  match l with
  | [] => ret tt
  | x :: l' => run! body x in for_each l' body
  end.

(** A loop that carries an accumulator. *)
Fixpoint fold_each {A B} (l : list A) (body : B -> A -> M B) (acc : B) : M B :=
  match l with
  | [] => ret acc
  | x :: l' => let! acc' := body acc x in fold_each l' body acc'
  end.

(** ** Heap access *)

Definition no_position : Position :=
  mkPosition "" 0 0 0 0 "" None 0 0 None None None.

Definition deref (h : list Position) (r : ref) : Position :=
  default no_position (h !! r).

Definition get_position (r : ref) : M Position :=
  gets (fun s => deref (heap s) r).

Definition set_heap (h : list Position) (s : ExecutionSimulator) : ExecutionSimulator :=
  mkExecutionSimulator h (strategy_manager s) (portfolio_evaluator s) (trade_history s).

Definition set_active (a : list ref) (s : ExecutionSimulator) : ExecutionSimulator :=
  mkExecutionSimulator (heap s)
    (mkStrategyManager (strategies (strategy_manager s)) a)
    (portfolio_evaluator s) (trade_history s).

Definition set_strategies (d : list (string * strategy_func)) (s : ExecutionSimulator)
  : ExecutionSimulator :=
  mkExecutionSimulator (heap s)
    (mkStrategyManager d (active_positions (strategy_manager s)))
    (portfolio_evaluator s) (trade_history s).

Definition set_history (t : list Trade) (s : ExecutionSimulator) : ExecutionSimulator :=
  mkExecutionSimulator (heap s) (strategy_manager s) (portfolio_evaluator s) t.

(** Assignment to attributes of the object [r]. *)
Definition update_position (r : ref) (f : Position -> Position) : M unit :=
  modify (fun s => set_heap (alter f r (heap s)) s).

Definition with_current_price (c : Q) (p : Position) : Position :=
  mkPosition (symbol p) (entry_price p) (entry_time p) (direction p) (size p)
    (strategy_id p) (Some c) (max_favorable_excursion p) (max_adverse_excursion p)
    (exit_price p) (exit_time p) (exit_reason p).

Definition with_mfe (m : Q) (p : Position) : Position :=
  mkPosition (symbol p) (entry_price p) (entry_time p) (direction p) (size p)
    (strategy_id p) (current_price p) m (max_adverse_excursion p)
    (exit_price p) (exit_time p) (exit_reason p).

Definition with_mae (m : Q) (p : Position) : Position :=
  mkPosition (symbol p) (entry_price p) (entry_time p) (direction p) (size p)
    (strategy_id p) (current_price p) (max_favorable_excursion p) m
    (exit_price p) (exit_time p) (exit_reason p).

Definition with_exit_price (px : Q) (p : Position) : Position :=
  mkPosition (symbol p) (entry_price p) (entry_time p) (direction p) (size p)
    (strategy_id p) (current_price p) (max_favorable_excursion p)
    (max_adverse_excursion p) (Some px) (exit_time p) (exit_reason p).

Definition with_exit_time (t : Z) (p : Position) : Position :=
  mkPosition (symbol p) (entry_price p) (entry_time p) (direction p) (size p)
    (strategy_id p) (current_price p) (max_favorable_excursion p)
    (max_adverse_excursion p) (exit_price p) (Some t) (exit_reason p).

Definition with_exit_reason (reason : string) (p : Position) : Position :=
  mkPosition (symbol p) (entry_price p) (entry_time p) (direction p) (size p)
    (strategy_id p) (current_price p) (max_favorable_excursion p)
    (max_adverse_excursion p) (exit_price p) (exit_time p) (Some reason).

(** [tick[key]] *)
Definition tick_item {A} (key : string) (v : option A) : M A :=
  match v with
  | Some a => ret a
  | None => raise (KeyError key)
  end.

(** ** StrategyManager *)

Definition StrategyManager__init__ : StrategyManager := mkStrategyManager [] [].

Definition register_strategy (sid : string) (f : strategy_func) : M unit :=
  modify (fun s => set_strategies (dict_set sid f (strategies (strategy_manager s))) s).

Definition _get_strategy_positions (sid : string) : M (list Position) :=
  gets (fun s =>
    filter (fun p => strategy_id p = sid)
      (map (deref (heap s)) (active_positions (strategy_manager s)))).

Definition process_tick (tick_data : Tick) : M (list (string * Signal)) :=
  let! items := gets (fun s => strategies (strategy_manager s)) in
  fold_each items
    (fun signals item =>
       let! positions := _get_strategy_positions (fst item) in
       let! signal := lift (snd item tick_data positions) in
       match signal with
       | Some sg => ret (signals ++ [(fst item, sg)])
       | None => ret signals
       end)
    [].

(** The directional profit of a position at price [c]. *)
Definition profit_loss (c : Q) (p : Position) : Q :=
  ((c - entry_price p) * inject_Z (direction p) * size p)%Q.

(** [position] below is the object as read when the iteration starts;
    the attributes that the conditions read ([entry_price], the
    excursions) are not the ones assigned before them. *)
Definition update_positions (tick_data : Tick) : M unit :=
  let! positions := gets (fun s => active_positions (strategy_manager s)) in
  for_each positions
    (fun r =>
       let! position := get_position r in
       if bool_decide (Some (symbol position) = tick_symbol tick_data) then
         let! c := tick_item "price" (tick_price tick_data) in
         run! update_position r (with_current_price c) in
         let pl := profit_loss c position in
         run! (if Qltb (max_favorable_excursion position) pl
               then update_position r (with_mfe pl) else ret tt) in
         if Qltb pl (max_adverse_excursion position)
         then update_position r (with_mae pl) else ret tt
       else ret tt).

(** ** PortfolioEvaluator *)

(** The constructor; the strategy manager it stores is the one of the
    simulator state. *)
Definition PortfolioEvaluator__init__ (settings : gmap string Q)
  : result PortfolioEvaluator :=
  fold_left
    (fun acc setting =>
       match acc with
       | Raise e => Raise e
       | Ok pe =>
           match settings !! setting with
           | None => Raise (ValueError ("Missing required risk setting: " ++ setting))
           | Some _ => Ok pe
           end
       end)
    ["mfe_exit_threshold"]
    (Ok (mkPortfolioEvaluator settings)).

(** [self.risk_settings[key]] *)
Definition risk_setting (key : string) : M Q :=
  let! settings := gets (fun s => risk_settings (portfolio_evaluator s)) in
  match settings !! key with
  | Some v => ret v
  | None => raise (KeyError key)
  end.

(** The loop that fills [symbol_groups]. *)
Definition group_by_symbol (h : list Position) (positions : list ref)
  : list (string * list ref) :=
  fold_left
    (fun symbol_groups r =>
       let sym := symbol (deref h r) in
       let symbol_groups :=
         if dict_in sym symbol_groups then symbol_groups
         else dict_set sym [] symbol_groups in
       dict_set sym (default [] (dict_get sym symbol_groups) ++ [r]) symbol_groups)
    positions [].

(** One term of the generator summed into [current_pl]: subtracting from
    an unset current price is a [TypeError]. *)
Definition position_profit_loss (p : Position) : result Q :=
  match current_price p with
  | Some c => Ok (profit_loss c p)
  | None => Raise TypeError
  end.

Fixpoint map_result {A B} (f : A -> result B) (l : list A) : result (list B) :=
  match l with
  | [] => Ok []
  | x :: l' =>
      match f x with
      | Raise e => Raise e
      | Ok y =>
          match map_result f l' with
          | Raise e => Raise e
          | Ok ys => Ok (y :: ys)
          end
      end
  end.

Definition MFE_TRAILING_STOP : string := "MFE_TRAILING_STOP".

Definition evaluate_exit_conditions : M (list (ref * string)) :=
  let! positions := gets (fun s => active_positions (strategy_manager s)) in
  match positions with
  | [] => ret []
  | _ =>
      let! h := gets heap in
      let symbol_groups := group_by_symbol h positions in
      fold_each symbol_groups
        (fun exit_signals item =>
           let pos_group := snd item in
           let! h := gets heap in
           let total_mfe :=
             pysum (map (fun r => max_favorable_excursion (deref h r)) pos_group) in
           let! terms :=
             lift (map_result (fun r => position_profit_loss (deref h r)) pos_group) in
           let current_pl := pysum terms in
           let! stop :=
             (if Qltb 0 total_mfe then
                let! threshold := risk_setting "mfe_exit_threshold" in
                ret (Qltb current_pl (total_mfe * (1 - threshold)))
              else ret false) in
           if stop
           then ret (exit_signals ++ map (fun r => (r, MFE_TRAILING_STOP)) pos_group)
           else ret exit_signals)
        []
  end.

Definition _calculate_max_drawdown : M Q := ret 0%Q.

Definition _calculate_strategy_correlation : M (list (string * Q)) := ret [].

(** The term a position contributes to [total_profit_loss]; the filter
    [if p.current_price] is Python truthiness: [None] and a zero price
    are both false. *)
Definition profit_loss_term (p : Position) : option Q :=
  match current_price p with
  | Some c => if Qeqb c 0 then None else Some (profit_loss c p)
  | None => None
  end.

Definition calculate_portfolio_metrics : M Metrics :=
  let! positions :=
    gets (fun s => map (deref (heap s)) (active_positions (strategy_manager s))) in
  let! drawdown := _calculate_max_drawdown in
  let! correlation := _calculate_strategy_correlation in
  ret {| total_positions := length positions;
         net_exposure :=
           pysum (map (fun p => (size p * inject_Z (direction p))%Q) positions);
         total_profit_loss := pysum (omap profit_loss_term positions);
         max_drawdown := drawdown;
         strategy_correlation := correlation |}.

(** ** ExecutionSimulator *)

Definition ExecutionSimulator__init__ (h : list Position) (sm : StrategyManager)
    (pe : PortfolioEvaluator) : ExecutionSimulator :=
  mkExecutionSimulator h sm pe [].

(** [field in tick] *)
Definition tick_contains (field : string) (tick : Tick) : bool :=
  if String.eqb field "symbol" then bool_decide (is_Some (tick_symbol tick))
  else if String.eqb field "price" then bool_decide (is_Some (tick_price tick))
  else if String.eqb field "timestamp" then bool_decide (is_Some (tick_timestamp tick))
  else false.

(** The [==] that the dataclass generates: the nine fields, compared as
    a tuple. *)
Definition option_Qeqb (a b : option Q) : bool :=
  match a, b with
  | Some x, Some y => Qeqb x y
  | None, None => true
  | _, _ => false
  end.

Definition Position_eqb (p q : Position) : bool :=
  String.eqb (symbol p) (symbol q)
  && Qeqb (entry_price p) (entry_price q)
  && Z.eqb (entry_time p) (entry_time q)
  && Z.eqb (direction p) (direction q)
  && Qeqb (size p) (size q)
  && String.eqb (strategy_id p) (strategy_id q)
  && option_Qeqb (current_price p) (current_price q)
  && Qeqb (max_favorable_excursion p) (max_favorable_excursion q)
  && Qeqb (max_adverse_excursion p) (max_adverse_excursion q).

(** [list.remove]: drops the first element that is the object or equals
    it; [None] when there is none. *)
Fixpoint remove_first (test : ref -> bool) (l : list ref) : option (list ref) :=
  match l with
  | [] => None
  | x :: l' =>
      if test x then Some l' else cons x <$> remove_first test l'
  end.

Definition list_remove (r : ref) : M unit :=
  let! h := gets heap in
  let! active := gets (fun s => active_positions (strategy_manager s)) in
  match remove_first
          (fun x => Nat.eqb x r || Position_eqb (deref h x) (deref h r)) active with
  | Some active' => modify (set_active active')
  | None => raise (ValueError "list.remove(x): x not in list")
  end.

Definition _open_position (sid : string) (tick : Tick) (sz : Q) (dir : Z) : M unit :=
  let! sym := tick_item "symbol" (tick_symbol tick) in
  let! px := tick_item "price" (tick_price tick) in
  let! ts := tick_item "timestamp" (tick_timestamp tick) in
  let position := mkPosition sym px ts dir sz sid None 0 0 None None None in
  let! r := gets (fun s => length (heap s)) in
  run! modify (fun s => set_heap (heap s ++ [position]) s) in
  run! modify (fun s => set_active (active_positions (strategy_manager s) ++ [r]) s) in
  let! ts := tick_item "timestamp" (tick_timestamp tick) in
  modify (fun s => set_history (trade_history s ++ [mkTrade "OPEN" ts r None]) s).

Definition _close_position (r : ref) (tick : Tick) (reason : string) : M unit :=
  let! px := tick_item "price" (tick_price tick) in
  run! update_position r (with_exit_price px) in
  let! ts := tick_item "timestamp" (tick_timestamp tick) in
  run! update_position r (with_exit_time ts) in
  run! update_position r (with_exit_reason reason) in
  run! list_remove r in
  let! ts := tick_item "timestamp" (tick_timestamp tick) in
  modify (fun s => set_history (trade_history s ++ [mkTrade "CLOSE" ts r (Some reason)]) s).

Definition process_tick_data (tick : Tick) : M Metrics :=
  run! for_each ["symbol"; "price"; "timestamp"]
         (fun field =>
            if tick_contains field tick then ret tt
            else raise (ValueError ("Missing required tick field: " ++ field))) in
  run! update_positions tick in
  let! exit_signals := evaluate_exit_conditions in
  run! for_each exit_signals
         (fun item => _close_position (fst item) tick (snd item)) in
  let! new_signals := process_tick tick in
  run! for_each new_signals
         (fun item =>
            let signal := snd item in
            if String.eqb (sig_action signal) "BUY"
            then _open_position (fst item) tick (sig_size signal) 1
            else if String.eqb (sig_action signal) "SELL"
            then _open_position (fst item) tick (sig_size signal) (-1)
            else ret tt) in
  calculate_portfolio_metrics.

(** * Specification-level definitions *)

(** ** Loop bodies and stages

    The bodies of the loops and the stages of [process_tick_data], under
    names; the lemmas [*_unfold] state that the functions above are made
    of them. *)

(** One iteration of the loop of [update_positions]. *)
Definition update_one (tick_data : Tick) (r : ref) : M unit :=
  let! position := get_position r in
  if bool_decide (Some (symbol position) = tick_symbol tick_data) then
    let! c := tick_item "price" (tick_price tick_data) in
    run! update_position r (with_current_price c) in
    let pl := profit_loss c position in
    run! (if Qltb (max_favorable_excursion position) pl
          then update_position r (with_mfe pl) else ret tt) in
    if Qltb pl (max_adverse_excursion position)
    then update_position r (with_mae pl) else ret tt
  else ret tt.

(** The body of the loop of [process_tick]. *)
Definition dispatch_one (tick_data : Tick) (signals : list (string * Signal))
    (item : string * strategy_func) : M (list (string * Signal)) :=
  let! positions := _get_strategy_positions (fst item) in
  let! signal := lift (snd item tick_data positions) in
  match signal with
  | Some sg => ret (signals ++ [(fst item, sg)])
  | None => ret signals
  end.

(** One iteration of the grouping loop. *)
Definition group_step (h : list Position) (symbol_groups : list (string * list ref))
    (r : ref) : list (string * list ref) :=
  let sym := symbol (deref h r) in
  let symbol_groups :=
    if dict_in sym symbol_groups then symbol_groups
    else dict_set sym [] symbol_groups in
  dict_set sym (default [] (dict_get sym symbol_groups) ++ [r]) symbol_groups.

(** The body of the loop over [symbol_groups]. *)
Definition exit_one (exit_signals : list (ref * string)) (item : string * list ref)
  : M (list (ref * string)) :=
  let pos_group := snd item in
  let! h := gets heap in
  let total_mfe :=
    pysum (map (fun r => max_favorable_excursion (deref h r)) pos_group) in
  let! terms :=
    lift (map_result (fun r => position_profit_loss (deref h r)) pos_group) in
  let current_pl := pysum terms in
  let! stop :=
    (if Qltb 0 total_mfe then
       let! threshold := risk_setting "mfe_exit_threshold" in
       ret (Qltb current_pl (total_mfe * (1 - threshold)))
     else ret false) in
  if stop
  then ret (exit_signals ++ map (fun r => (r, MFE_TRAILING_STOP)) pos_group)
  else ret exit_signals.

(** The field check that opens [process_tick_data]. *)
Definition validate (tick : Tick) : M unit :=
  for_each ["symbol"; "price"; "timestamp"]
    (fun field =>
       if tick_contains field tick then ret tt
       else raise (ValueError ("Missing required tick field: " ++ field))).

Definition close_one (tick : Tick) (item : ref * string) : M unit :=
  _close_position (fst item) tick (snd item).

Definition open_one (tick : Tick) (item : string * Signal) : M unit :=
  let signal := snd item in
  if String.eqb (sig_action signal) "BUY"
  then _open_position (fst item) tick (sig_size signal) 1
  else if String.eqb (sig_action signal) "SELL"
  then _open_position (fst item) tick (sig_size signal) (-1)
  else ret tt.

(** The pipeline up to and including the closes. *)
Definition close_flagged (tick : Tick) : M unit :=
  run! validate tick in
  run! update_positions tick in
  let! exit_signals := evaluate_exit_conditions in
  for_each exit_signals (close_one tick).

(** ** Position update in the words of the specification *)

(** The mathematical sum of a list. *)
Definition Qsum (l : list Q) : Q := foldr Qplus 0%Q l.

(** The update of one position by a tick at price [px], in the words of
    the specification. *)
Definition tick_update (px : Q) (p : Position) : Position :=
  let pl := profit_loss px p in
  mkPosition (symbol p) (entry_price p) (entry_time p) (direction p) (size p)
    (strategy_id p) (Some px)
    (Qmax (max_favorable_excursion p) pl)
    (Qmin (max_adverse_excursion p) pl)
    (exit_price p) (exit_time p) (exit_reason p).

(** The same, on the positions of the instrument of the tick only. *)
Definition tick_update_if (tick_data : Tick) (px : Q) (p : Position) : Position :=
  if bool_decide (Some (symbol p) = tick_symbol tick_data)
  then tick_update px p else p.

(** ** Dispatch *)

(** The positions handed to the strategy [sid]. *)
Definition strategy_positions (s : ExecutionSimulator) (sid : string) : list Position :=
  filter (fun p => strategy_id p = sid)
    (map (deref (heap s)) (active_positions (strategy_manager s))).

(** What the strategy in a slot of the registry answers in the state [s]. *)
Definition answer (tick_data : Tick) (s : ExecutionSimulator)
    (item : string * strategy_func) : result (option Signal) :=
  snd item tick_data (strategy_positions s (fst item)).

(** The entry that a slot adds to the signals. *)
Definition emitted (tick_data : Tick) (s : ExecutionSimulator)
    (item : string * strategy_func) : option (string * Signal) :=
  match answer tick_data s item with
  | Ok (Some sg) => Some (fst item, sg)
  | _ => None
  end.

(** The strategy in the slot returns normally. *)
Definition returns (tick_data : Tick) (s : ExecutionSimulator)
    (item : string * strategy_func) : Prop :=
  exists o, answer tick_data s item = Ok o.

(** ** Grouping and the trailing stop *)

(** The distinct elements of a list, in the order of their first
    occurrence. *)
Fixpoint first_seen (l : list string) : list string :=
  match l with
  | [] => []
  | x :: l' => x :: filter (fun y => y <> x) (first_seen l')
  end.

Definition symbol_of (h : list Position) (r : ref) : string := symbol (deref h r).

(** The positions of [positions] on the instrument [sym], in order. *)
Definition group_of (h : list Position) (positions : list ref) (sym : string) : list ref :=
  filter (fun r => symbol_of h r = sym) positions.

(** Grouping in the words of the specification: one group per
    instrument, in first-seen order, each group in active-set order. *)
Definition groups_of (h : list Position) (positions : list ref)
  : list (string * list ref) :=
  (fun sym => (sym, group_of h positions sym)) <$> first_seen (symbol_of h <$> positions).

(** The profit of a position at its current price. *)
Definition unrealized (p : Position) : Q :=
  profit_loss (default 0%Q (current_price p)) p.

Definition total_mfe (h : list Position) (g : list ref) : Q :=
  Qsum ((fun r => max_favorable_excursion (deref h r)) <$> g).

Definition current_pl (h : list Position) (g : list ref) : Q :=
  Qsum ((fun r => unrealized (deref h r)) <$> g).

(** The trailing-stop rule on a group, for the threshold [th]. *)
Definition trailing_stop (h : list Position) (th : Q) (g : list ref) : Prop :=
  (0 < total_mfe h g)%Q /\ (current_pl h g < total_mfe h g * (1 - th))%Q.

#[global] Instance Qlt_decision (a b : Q) : Decision (a < b)%Q.
Proof.
  destruct (Qlt_le_dec a b) as [H|H]; [left; exact H|right].
  intros H'. exact (Qlt_not_le _ _ H' H).
Defined.

#[global] Instance trailing_stop_dec (h : list Position) (th : Q) (g : list ref) :
  Decision (trailing_stop h th g).
Proof. unfold trailing_stop. apply _. Defined.

(** What a group contributes to the exit signals. *)
Definition flagged (h : list Position) (th : Q) (g : list ref) : list (ref * string) :=
  if decide (trailing_stop h th g) then (fun r => (r, MFE_TRAILING_STOP)) <$> g else [].

(** The object [r] has a current price. *)
Definition priced (h : list Position) (r : ref) : Prop :=
  is_Some (current_price (deref h r)).

(** ** Metrics in the words of the specification *)

(** The sum of the unrealized P&L over the positions with a known
    current price. *)
Definition known_price_profit_loss (positions : list Position) : Q :=
  Qsum (unrealized <$> filter (fun p => is_Some (current_price p)) positions).

(** The positions that the code sums: a current price that is set and
    is not zero. *)
Definition truthy_price (p : Position) : Prop :=
  exists c, current_price p = Some c /\ ~ (c == 0)%Q.

#[global] Instance truthy_price_dec (p : Position) : Decision (truthy_price p).
Proof.
  unfold truthy_price. destruct (current_price p) as [c|].
  - destruct (Qeq_dec c 0) as [H|H].
    + right. intros (c' & [= <-] & Hc). contradiction.
    + left. exists c. split; [reflexivity|assumption].
  - right. intros (c' & Hc & _). discriminate.
Defined.

(** ** Excursions over the lifetime of a position *)

Definition excursion_ok (p : Position) : Prop :=
  (0 <= max_favorable_excursion p)%Q /\ (max_adverse_excursion p <= 0)%Q.

(** From [p] to [p'] the MFE does not decrease and the MAE does not
    increase. *)
Definition excursion_le (p p' : Position) : Prop :=
  (max_favorable_excursion p <= max_favorable_excursion p')%Q
  /\ (max_adverse_excursion p' <= max_adverse_excursion p)%Q.

(** Every object of [h] is still in [h'], with excursions that have only
    widened. *)
Definition excursions_grow (h h' : list Position) : Prop :=
  forall (r : ref) (p : Position),
    h !! r = Some p -> exists p', h' !! r = Some p' /\ excursion_le p p'.

(** One step in the life of the position objects: the objects that exist
    keep widening, the objects created have MFE >= 0 >= MAE. *)
Definition lifetime_step (s s' : ExecutionSimulator) : Prop :=
  excursions_grow (heap s) (heap s')
  /\ forall (r : ref) (p' : Position),
       length (heap s) <= r -> heap s' !! r = Some p' -> excursion_ok p'.

(** A tick that carries the three required fields. *)
Definition valid_tick (tick : Tick) : Prop :=
  is_Some (tick_symbol tick) /\ is_Some (tick_price tick) /\ is_Some (tick_timestamp tick).

(** The simulator after a sequence of ticks; a caller that catches the
    exception of a tick goes on with the next one. *)
Definition run_ticks (ticks : list Tick) (s : ExecutionSimulator) : ExecutionSimulator :=
  fold_left (fun s tick => snd (process_tick_data tick s)) ticks s.

(** The states a simulator goes through: constructed over a fresh
    strategy manager, then any registrations and ticks, whatever the
    calls return. *)
Inductive reachable : ExecutionSimulator -> Prop :=
  | reachable_init (settings : gmap string Q) (pe : PortfolioEvaluator) :
      PortfolioEvaluator__init__ settings = Ok pe ->
      reachable (ExecutionSimulator__init__ [] StrategyManager__init__ pe)
  | reachable_register (s : ExecutionSimulator) (sid : string) (f : strategy_func) :
      reachable s -> reachable (snd (register_strategy sid f s))
  | reachable_tick (s : ExecutionSimulator) (tick : Tick) :
      reachable s -> reachable (snd (process_tick_data tick s)).

(** A property of the state change of a computation, whatever it
    returns. *)
Definition post {A} (R : ExecutionSimulator -> ExecutionSimulator -> Prop) (m : M A) : Prop :=
  forall s, R s (snd (m s)).

(** ** The order of the pipeline *)

(** Every active reference points to an object of the heap. *)
Definition wf (s : ExecutionSimulator) : Prop :=
  Forall (fun r => r < length (heap s)) (active_positions (strategy_manager s)).

(** Well-formedness is kept by a state change. *)
Definition wf_step (s s' : ExecutionSimulator) : Prop := wf s -> wf s'.

(** The state change of the closes of the exit signals [flags]: no
    object is created, no position becomes active, and the history grows
    by CLOSE entries of flagged positions. *)
Definition closing (flags : list (ref * string)) (s s' : ExecutionSimulator) : Prop :=
  length (heap s') = length (heap s)
  /\ active_positions (strategy_manager s') ⊆ active_positions (strategy_manager s)
  /\ exists closes : list Trade,
       trade_history s' = trade_history s ++ closes
       /\ Forall (fun t => tr_action t = "CLOSE"
                           /\ exists reason, (tr_position t, reason) ∈ flags
                                             /\ tr_reason t = Some reason) closes.

(** The state change of the opens: the active positions and the history
    grow at the end, the history by OPEN entries of objects that did not
    exist before and are active afterwards. *)
Definition opening (s s' : ExecutionSimulator) : Prop :=
  length (heap s) <= length (heap s')
  /\ (exists added, active_positions (strategy_manager s')
                    = active_positions (strategy_manager s) ++ added)
  /\ exists opens : list Trade,
       trade_history s' = trade_history s ++ opens
       /\ Forall (fun t => tr_action t = "OPEN"
                           /\ length (heap s) <= tr_position t
                           /\ tr_position t ∈ active_positions (strategy_manager s')) opens.


(** ** Scenarios *)

(** A long position of size 1 entered at 100 on the instrument X. *)
Definition long_at_100 : Position :=
  mkPosition "X" 100 0 1 1 "A" None 0 0 None None None.

(** The long entered at 100 after a tick at price 0. *)
Definition long_at_zero : Position :=
  mkPosition "X" 100 0 1 1 "A" (Some 0%Q) 0 (-100) None None None.

(** A tick with its three fields. *)
Definition tick_at (sym : string) (px : Q) (ts : Z) : Tick :=
  mkTick (Some sym) (Some px) (Some ts).

(** A simulator over the heap [h] with the threshold 1/2 and no strategy. *)
Definition book_of (h : list Position) (active : list ref) : ExecutionSimulator :=
  ExecutionSimulator__init__ h (mkStrategyManager [] active)
    (mkPortfolioEvaluator {[ "mfe_exit_threshold" := (1 # 2)%Q ]}).

(** The book after the ticks at 110 and at 95 of the long entered at 100. *)
Definition book_after_110 : ExecutionSimulator :=
  snd (update_positions (tick_at "X" 110 1) (book_of [long_at_100] [0])).

Definition book_after_95 : ExecutionSimulator :=
  snd (update_positions (tick_at "X" 95 2) book_after_110).

Definition buy_signal : Signal := mkSignal "BUY" 1.

(** Strategies: buy one unit while flat, always buy, stay idle, fail. *)
Definition buy_when_flat : strategy_func :=
  fun _ positions =>
    match positions with
    | [] => Ok (Some (mkSignal "BUY" 1))
    | _ => Ok None
    end.

Definition always_buy : strategy_func := fun _ _ => Ok (Some buy_signal).

Definition idle : strategy_func := fun _ _ => Ok None.

Definition failing : strategy_func := fun _ _ => Raise (StrategyFailure "boom").

(** A fresh simulator with the threshold 1/2 and the given registry,
    built by the constructors and [register_strategy]. *)
Definition fresh_simulator (registry : list (string * strategy_func)) : ExecutionSimulator :=
  snd (for_each registry (fun item => register_strategy (fst item) (snd item))
         (ExecutionSimulator__init__ [] StrategyManager__init__
            (mkPortfolioEvaluator {[ "mfe_exit_threshold" := (1 # 2)%Q ]}))).

(** The book of a strategy that bought at 100 and saw a tick at 110. *)
Definition book_before_pullback : ExecutionSimulator :=
  run_ticks [tick_at "X" 100 0; tick_at "X" 110 1] (fresh_simulator [("A", buy_when_flat)]).

(** ** Further definitions: closes, opens and invariants of the book *)

(** The six fields that a position gets when it is opened. *)
Definition entry_fields (p : Position) : string * Q * Z * Z * Q * string :=
  (symbol p, entry_price p, entry_time p, direction p, size p, strategy_id p).

(** [p'] has the entry fields of [p]. *)
Definition same_entry (p p' : Position) : Prop := entry_fields p' = entry_fields p.

(** Every object stays in the heap, related to what it was by [Rel]. *)
Definition evolves (Rel : Position -> Position -> Prop) (s s' : ExecutionSimulator) : Prop :=
  forall (r : ref) (p : Position),
    heap s !! r = Some p -> exists p', heap s' !! r = Some p' /\ Rel p p'.

(** Across a state change the registry and the risk settings are the
    same and the history has only grown at its end. *)
Definition appends_only (s s' : ExecutionSimulator) : Prop :=
  strategies (strategy_manager s') = strategies (strategy_manager s)
  /\ portfolio_evaluator s' = portfolio_evaluator s
  /\ exists added : list Trade, trade_history s' = trade_history s ++ added.

(** The object [r], once it exists and is not active, stays as it is
    and stays out of the active positions. *)
Definition frozen (r : ref) (s s' : ExecutionSimulator) : Prop :=
  r < length (heap s) ->
  r ∉ active_positions (strategy_manager s) ->
  heap s' !! r = (heap s !! r)
  /\ (r ∉ active_positions (strategy_manager s'))
  /\ r < length (heap s').

(** The three assignments of [_close_position] on the object. *)
Definition closed_with (px : Q) (ts : Z) (reason : string) (p : Position) : Position :=
  with_exit_reason reason (with_exit_time ts (with_exit_price px p)).

(** The history entry of a close. *)
Definition close_entry (ts : Z) (item : ref * string) : Trade :=
  mkTrade "CLOSE" ts (fst item) (Some (snd item)).

(** The test of [list.remove] for the object [r]: the object itself or
    one equal to it. *)
Definition same_or_equal (h : list Position) (r x : ref) : bool :=
  Nat.eqb x r || Position_eqb (deref h x) (deref h r).

(** The heap after closing the objects [refs] for the same reason. *)
Definition close_all (px : Q) (ts : Z) (reason : string) (refs : list ref)
    (h : list Position) : list Position :=
  foldl (fun h r => alter (closed_with px ts reason) r h) h refs.

(** The position that a signal opens on a tick: long for BUY, short for
    SELL, nothing for any other action. *)
Definition position_of_signal (sym : string) (px : Q) (ts : Z) (item : string * Signal)
  : option Position :=
  if String.eqb (sig_action (snd item)) "BUY"
  then Some (mkPosition sym px ts 1 (sig_size (snd item)) (fst item) None 0 0 None None None)
  else if String.eqb (sig_action (snd item)) "SELL"
  then Some (mkPosition sym px ts (-1) (sig_size (snd item)) (fst item) None 0 0 None None None)
  else None.

(** The state after the opens of the positions [news] at time [ts]. *)
Definition after_opens (ts : Z) (news : list Position) (s : ExecutionSimulator)
  : ExecutionSimulator :=
  let refs := seq (length (heap s)) (length news) in
  mkExecutionSimulator (heap s ++ news)
    (mkStrategyManager (strategies (strategy_manager s))
       (active_positions (strategy_manager s) ++ refs))
    (portfolio_evaluator s)
    (trade_history s ++ ((fun r => mkTrade "OPEN" ts r None) <$> refs)).

(** A position that was not closed, and one that was. *)
Definition is_open (p : Position) : Prop :=
  exit_price p = None /\ exit_time p = None /\ exit_reason p = None.

Definition is_closed (p : Position) : Prop :=
  is_Some (exit_price p) /\ is_Some (exit_time p) /\ is_Some (exit_reason p).

(** The book is consistent: a threshold is configured, the active
    references are distinct objects of the heap, and the objects of the
    heap are the active ones, open, and the others, closed. *)
Definition book_ok (s : ExecutionSimulator) : Prop :=
  is_Some (risk_settings (portfolio_evaluator s) !! "mfe_exit_threshold")
  /\ wf s
  /\ NoDup (active_positions (strategy_manager s))
  /\ forall (r : ref) (p : Position),
       heap s !! r = Some p ->
       (r ∈ active_positions (strategy_manager s) /\ is_open p)
       \/ ((r ∉ active_positions (strategy_manager s)) /\ is_closed p).

(** A state change that leaves the object [r] alone: the object is as
    it was, no object disappears, and no position becomes active. *)
Definition untouched (r : ref) (s s' : ExecutionSimulator) : Prop :=
  heap s' !! r = heap s !! r
  /\ length (heap s') = length (heap s)
  /\ active_positions (strategy_manager s') ⊆ active_positions (strategy_manager s).

(** * Properties *)

(** ** Numbers *)

Lemma Qltb_lt (a b : Q) : Qltb a b = true <-> (a < b)%Q.
Proof.
  unfold Qltb. rewrite Qlt_alt. destruct (a ?= b)%Q; split; congruence.
Qed.

Lemma Qltb_ge (a b : Q) : Qltb a b = false <-> (b <= a)%Q.
Proof.
  rewrite <- not_true_iff_false, Qltb_lt. split.
  - apply Qnot_lt_le.
  - intros H1 H2. exact (Qlt_not_le _ _ H2 H1).
Qed.

Lemma Qeqb_eq (a b : Q) : Qeqb a b = true <-> (a == b)%Q.
Proof.
  unfold Qeqb. rewrite Qeq_alt. destruct (a ?= b)%Q; split; congruence.
Qed.

(** The guarded assignment [if pl > mfe: mfe = pl] is a maximum. *)
Lemma guarded_max (m pl : Q) : (if Qltb m pl then pl else m) = Qmax m pl.
Proof.
  unfold Qltb, Qmax, GenericMinMax.gmax. destruct (m ?= pl)%Q; reflexivity.
Qed.

(** The guarded assignment [if pl < mae: mae = pl] is a minimum. *)
Lemma guarded_min (m pl : Q) : (if Qltb pl m then pl else m) = Qmin m pl.
Proof.
  unfold Qltb, Qmin, GenericMinMax.gmin. rewrite <- (Qcompare_antisym m pl).
  destruct (m ?= pl)%Q; reflexivity.
Qed.

Lemma fold_left_Qplus (l : list Q) (a : Q) :
  (fold_left Qplus l a == a + Qsum l)%Q.
Proof.
  revert a. induction l as [|x l IH]; intros a; simpl.
  - ring.
  - rewrite IH. ring.
Qed.

Lemma pysum_Qsum (l : list Q) : (pysum l == Qsum l)%Q.
Proof. unfold pysum. rewrite fold_left_Qplus. ring. Qed.

(** ** The monad *)

Lemma set_heap_id (s : ExecutionSimulator) : set_heap (heap s) s = s.
Proof. now destruct s. Qed.

(** ** C2: update_positions *)

Lemma Qmax_idem (m pl : Q) : Qmax (Qmax m pl) pl = Qmax m pl.
Proof.
  unfold Qmax, GenericMinMax.gmax.
  destruct (m ?= pl)%Q eqn:E; rewrite ?E; try reflexivity.
  now rewrite (proj1 (Qeq_alt _ _) (Qeq_refl pl)).
Qed.

Lemma Qmin_idem (m pl : Q) : Qmin (Qmin m pl) pl = Qmin m pl.
Proof.
  unfold Qmin, GenericMinMax.gmin.
  destruct (m ?= pl)%Q eqn:E; rewrite ?E; try reflexivity.
  now rewrite (proj1 (Qeq_alt _ _) (Qeq_refl pl)).
Qed.

Lemma tick_update_if_idem (tick_data : Tick) (px : Q) (p : Position) :
  tick_update_if tick_data px (tick_update_if tick_data px p)
  = tick_update_if tick_data px p.
Proof.
  unfold tick_update_if.
  destruct (bool_decide (Some (symbol p) = tick_symbol tick_data)) eqn:E; simpl.
  - rewrite E. unfold tick_update, profit_loss. simpl.
    now rewrite Qmax_idem, Qmin_idem.
  - now rewrite E.
Qed.

Lemma update_positions_unfold (tick_data : Tick) (s : ExecutionSimulator) :
  update_positions tick_data s
  = for_each (active_positions (strategy_manager s)) (update_one tick_data) s.
Proof. reflexivity. Qed.

Lemma alter_at (f g : Position -> Position) (h : list Position) (r : ref) (p : Position) :
  h !! r = Some p -> f p = g p -> alter f r h = alter g r h.
Proof.
  intros Hr Hfg. apply list_alter_ext; [|reflexivity].
  intros x Hx. rewrite Hr in Hx. now injection Hx as <-.
Qed.

Lemma alter_dangling (f : Position -> Position) (h : list Position) (r : ref) :
  h !! r = None -> alter f r h = h.
Proof.
  intros Hr. apply list_eq. intros j. rewrite list_lookup_alter.
  case_decide; [subst; now rewrite Hr|reflexivity].
Qed.

Lemma update_one_spec (tick_data : Tick) (px : Q) (r : ref) (s : ExecutionSimulator) :
  tick_price tick_data = Some px ->
  update_one tick_data r s
  = (Ok tt, set_heap (alter (tick_update_if tick_data px) r (heap s)) s).
Proof.
  intros Hpx. unfold update_one, get_position, gets, bind, deref.
  destruct (heap s !! r) as [p|] eqn:Hr; simpl.
  - destruct (bool_decide (Some (symbol p) = tick_symbol tick_data)) eqn:E.
    + rewrite Hpx. simpl. unfold update_position, modify, ret.
      assert (Hp : tick_update_if tick_data px p = tick_update px p)
        by (unfold tick_update_if; now rewrite E).
      unfold tick_update in Hp.
      rewrite <- guarded_max, <- guarded_min in Hp.
      destruct (Qltb (max_favorable_excursion p) (profit_loss px p));
        destruct (Qltb (profit_loss px p) (max_adverse_excursion p));
        simpl; f_equal; unfold set_heap; simpl; f_equal;
        rewrite ?list_alter_alter_eq;
        apply (alter_at _ _ _ _ p Hr); rewrite Hp; reflexivity.
    + unfold ret. f_equal. rewrite <- (set_heap_id s) at 1. f_equal.
      symmetry. rewrite (alter_at _ id _ _ p Hr).
      * now apply list_alter_id.
      * unfold tick_update_if. now rewrite E.
  - rewrite (alter_dangling _ _ _ Hr), set_heap_id.
    destruct (bool_decide _); [|reflexivity].
    rewrite Hpx. simpl. unfold update_position, modify, ret.
    destruct (Qltb _ _); destruct (Qltb _ _); simpl;
      rewrite ?(alter_dangling _ _ _ Hr); rewrite ?set_heap_id; try reflexivity.
Qed.

Lemma for_each_update (tick_data : Tick) (px : Q) (l : list ref) (s : ExecutionSimulator) :
  tick_price tick_data = Some px ->
  for_each l (update_one tick_data) s
  = (Ok tt, set_heap (foldl (fun h r => alter (tick_update_if tick_data px) r h) (heap s) l) s).
Proof.
  intros Hpx. revert s. induction l as [|r l IH]; intros s; simpl.
  - unfold ret. now rewrite set_heap_id.
  - unfold bind. rewrite (update_one_spec _ px) by assumption.
    rewrite IH. reflexivity.
Qed.

Lemma foldl_alter_lookup (f : Position -> Position) (l : list ref) (h : list Position) (r : ref) :
  (forall p, f (f p) = f p) ->
  foldl (fun h r => alter f r h) h l !! r
  = if bool_decide (r ∈ l) then f <$> h !! r else h !! r.
Proof.
  intros Hf. revert h. induction l as [|x l IH]; intros h; simpl.
  - reflexivity.
  - rewrite IH. rewrite list_lookup_alter.
    destruct (decide (x = r)) as [->|Hne].
    + rewrite (bool_decide_eq_true_2 (r ∈ r :: l)) by apply list_elem_of_here.
      destruct (bool_decide (r ∈ l)); [|reflexivity].
      destruct (h !! r); simpl; [now rewrite Hf|reflexivity].
    + destruct (bool_decide (r ∈ l)) eqn:E.
      * apply bool_decide_eq_true_1 in E.
        rewrite (bool_decide_eq_true_2 (r ∈ x :: l)); [reflexivity|].
        now apply list_elem_of_further.
      * apply bool_decide_eq_false_1 in E.
        rewrite (bool_decide_eq_false_2 (r ∈ x :: l)); [reflexivity|].
        rewrite elem_of_cons. intros [?|?]; congruence.
Qed.

(** C2.  For a tick that carries a price, [update_positions] returns
    normally and touches nothing but the position objects; an active
    position on the tick's instrument gets the tick price as current
    price, MFE = max(MFE, pl) and MAE = min(MAE, pl) for
    pl = (price - entry) * direction * size, and every other position is
    unchanged.  A long of size 1 entered at 100 has after a tick at 110
    pl = 10, MFE = 10 and MAE = 0, and after a further tick at 95
    pl = -5, MFE = 10 and MAE = -5. *)
Theorem update_positions_spec :
  (forall (s : ExecutionSimulator) (sym : option string) (px : Q) (ts : option Z),
     let tick_data := mkTick sym (Some px) ts in
     let s' := snd (update_positions tick_data s) in
     fst (update_positions tick_data s) = Ok tt
     /\ strategy_manager s' = strategy_manager s
     /\ portfolio_evaluator s' = portfolio_evaluator s
     /\ trade_history s' = trade_history s
     /\ length (heap s') = length (heap s)
     /\ forall (r : ref) (p : Position),
          heap s !! r = Some p ->
          (r ∈ active_positions (strategy_manager s) ->
           Some (symbol p) = sym ->
           heap s' !! r = Some (tick_update px p))
          /\ (r ∉ active_positions (strategy_manager s) \/ Some (symbol p) <> sym ->
              heap s' !! r = Some p))
  /\ (let s1 := snd (update_positions (tick_at "X" 110 1) (book_of [long_at_100] [0])) in
      let s2 := snd (update_positions (tick_at "X" 95 2) s1) in
      profit_loss 110 long_at_100 = 10%Q
      /\ (exists p1, heap s1 !! 0 = Some p1
            /\ current_price p1 = Some 110%Q
            /\ max_favorable_excursion p1 = 10%Q
            /\ max_adverse_excursion p1 = 0%Q)
      /\ profit_loss 95 long_at_100 = (-5)%Q
      /\ (exists p2, heap s2 !! 0 = Some p2
            /\ current_price p2 = Some 95%Q
            /\ max_favorable_excursion p2 = 10%Q
            /\ max_adverse_excursion p2 = (-5)%Q)).
Proof.
  split.
  - intros s sym px ts tick_data s'. subst s'.
    rewrite update_positions_unfold, (for_each_update tick_data px) by reflexivity.
    simpl. split; [reflexivity|]. split; [reflexivity|]. split; [reflexivity|].
    split; [reflexivity|]. split; [|intros r p Hr; split].
    + clear. generalize (heap s).
      induction (active_positions (strategy_manager s)) as [|x l IH]; intros h; simpl.
      * reflexivity.
      * now rewrite IH, length_alter.
    + intros Hin Hsym.
      rewrite foldl_alter_lookup by apply tick_update_if_idem.
      rewrite bool_decide_eq_true_2 by assumption. rewrite Hr. simpl.
      unfold tick_update_if. simpl. now rewrite bool_decide_eq_true_2 by assumption.
    + intros Hno.
      rewrite foldl_alter_lookup by apply tick_update_if_idem.
      rewrite Hr. destruct (bool_decide (r ∈ _)) eqn:E; [|reflexivity].
      apply bool_decide_eq_true_1 in E. destruct Hno as [Hno|Hno]; [contradiction|].
      simpl. unfold tick_update_if. simpl. now rewrite bool_decide_eq_false_2 by assumption.
  - vm_compute. repeat split; eexists; repeat split.
Qed.

Lemma update_positions_spec_witness :
  heap (book_of [long_at_100] [0]) !! 0 = Some long_at_100
  /\ 0 ∈ active_positions (strategy_manager (book_of [long_at_100] [0]))
  /\ Some (symbol long_at_100) = Some "X"
  /\ heap (snd (update_positions (mkTick (Some "X") (Some 110%Q) None)
                  (book_of [long_at_100] [0]))) !! 0
     = Some (tick_update 110 long_at_100).
Proof.
  assert (H0 : heap (book_of [long_at_100] [0]) !! 0 = Some long_at_100) by reflexivity.
  assert (H1 : 0 ∈ active_positions (strategy_manager (book_of [long_at_100] [0])))
    by (simpl; apply list_elem_of_here).
  split; [exact H0|]. split; [exact H1|]. split; [reflexivity|].
  destruct (proj1 update_positions_spec (book_of [long_at_100] [0]) (Some "X") 110%Q None)
    as (_ & _ & _ & _ & _ & H).
  exact (proj1 (H 0 long_at_100 H0) H1 eq_refl).
Defined.

(** ** C3: validation *)

(** C3.  A tick that lacks one of [symbol], [price], [timestamp] makes
    [process_tick_data] raise a ValueError naming the first missing
    field, and the whole state (position objects, active positions,
    registry, trade history) is the one before the call. *)
Theorem process_tick_data_missing_field (tick : Tick) (s : ExecutionSimulator) :
  tick_symbol tick = None \/ tick_price tick = None \/ tick_timestamp tick = None ->
  exists field : string,
    field ∈ ["symbol"; "price"; "timestamp"]
    /\ process_tick_data tick s
       = (Raise (ValueError ("Missing required tick field: " ++ field)), s).
Proof.
  intros H. destruct tick as [[sym|] [px|] [ts|]]; simpl in H.
  - destruct H as [H|[H|H]]; discriminate.
  - exists "timestamp". split; [repeat constructor|reflexivity].
  - exists "price". split; [repeat constructor|reflexivity].
  - exists "price". split; [repeat constructor|reflexivity].
  - exists "symbol". split; [repeat constructor|reflexivity].
  - exists "symbol". split; [repeat constructor|reflexivity].
  - exists "symbol". split; [repeat constructor|reflexivity].
  - exists "symbol". split; [repeat constructor|reflexivity].
Qed.

Lemma process_tick_data_missing_field_witness :
  exists field : string,
    field ∈ ["symbol"; "price"; "timestamp"]
    /\ process_tick_data (mkTick (Some "X") None (Some 3%Z)) (book_of [long_at_100] [0])
       = (Raise (ValueError ("Missing required tick field: " ++ field)),
          book_of [long_at_100] [0]).
Proof.
  apply (process_tick_data_missing_field
           (mkTick (Some "X") None (Some 3%Z)) (book_of [long_at_100] [0])).
  right. left. reflexivity.
Defined.

(** ** Insertion-ordered dicts and the dispatch loop *)

Section DictFacts.
Context {V : Type}.
Implicit Types (d : list (string * V)) (k : string) (v : V).

Lemma dict_in_elem k d : dict_in k d = bool_decide (k ∈ d.*1).
Proof.
  induction d as [|[k' v'] d IH]; csimpl.
  - reflexivity.
  - destruct (String.eqb_spec k' k) as [->|Hne].
    + symmetry. apply bool_decide_eq_true_2. apply list_elem_of_here.
    + rewrite IH. apply bool_decide_ext. rewrite elem_of_cons.
      split; [auto|intros [?|?]; [congruence|assumption]].
Qed.

Lemma dict_set_keys k v d :
  (dict_set k v d).*1 = if dict_in k d then d.*1 else d.*1 ++ [k].
Proof.
  induction d as [|[k' v'] d IH]; csimpl.
  - reflexivity.
  - destruct (String.eqb_spec k' k) as [->|Hne]; csimpl.
    + reflexivity.
    + rewrite IH. now destruct (dict_in k d).
Qed.

Lemma dict_get_set_eq k v d : dict_get k (dict_set k v d) = Some v.
Proof.
  induction d as [|[k' v'] d IH]; csimpl.
  - now rewrite String.eqb_refl.
  - destruct (String.eqb_spec k' k) as [->|Hne]; csimpl.
    + now rewrite String.eqb_refl.
    + now rewrite (proj2 (String.eqb_neq k' k) Hne).
Qed.

Lemma dict_get_set_ne k k' v d :
  k <> k' -> dict_get k' (dict_set k v d) = dict_get k' d.
Proof.
  intros Hne. induction d as [|[k0 v0] d IH]; csimpl.
  - now rewrite (proj2 (String.eqb_neq k k') Hne).
  - destruct (String.eqb_spec k0 k) as [->|Hne0]; csimpl.
    + now rewrite (proj2 (String.eqb_neq k k') Hne).
    + now rewrite IH.
Qed.

Lemma dict_set_new k v d : k ∉ d.*1 -> dict_set k v d = d ++ [(k, v)].
Proof.
  induction d as [|[k' v'] d IH]; csimpl; intros Hk.
  - reflexivity.
  - apply not_elem_of_cons in Hk as [Hne Hk].
    rewrite (proj2 (String.eqb_neq k' k)) by congruence.
    now rewrite IH.
Qed.

(** Replacing a registered key changes the value in its slot and
    nothing else. *)
Lemma dict_set_replace k v d :
  NoDup d.*1 -> k ∈ d.*1 ->
  dict_set k v d = (fun kv => if String.eqb (fst kv) k then (fst kv, v) else kv) <$> d.
Proof.
  induction d as [|[k' v'] d IH]; csimpl; intros Hnd Hk.
  - now apply elem_of_nil in Hk.
  - apply NoDup_cons in Hnd as [Hk' Hnd].
    destruct (String.eqb_spec k' k) as [->|Hne]; csimpl.
    + f_equal. clear IH Hk Hnd. induction d as [|[k0 v0] d IH]; csimpl.
      * reflexivity.
      * simpl in Hk'. apply not_elem_of_cons in Hk' as [Hne Hk'].
        rewrite (proj2 (String.eqb_neq k0 k)) by congruence.
        now rewrite <- IH.
    + rewrite IH; [reflexivity|assumption|].
      apply elem_of_cons in Hk as [Hk|Hk]; [congruence|assumption].
Qed.

Lemma dict_set_set k v v' d : dict_set k v (dict_set k v' d) = dict_set k v d.
Proof.
  induction d as [|[k0 v0] d IH]; csimpl.
  - now rewrite String.eqb_refl.
  - destruct (String.eqb_spec k0 k) as [->|Hne]; csimpl.
    + now rewrite String.eqb_refl.
    + rewrite (proj2 (String.eqb_neq k0 k) Hne). now rewrite IH.
Qed.

Lemma dict_set_NoDup k v d : NoDup d.*1 -> NoDup (dict_set k v d).*1.
Proof.
  intros Hnd. rewrite dict_set_keys, dict_in_elem.
  case_bool_decide as Hk; [assumption|].
  apply NoDup_app. repeat split; [assumption| |apply NoDup_singleton].
  intros x Hx Hx'. apply list_elem_of_singleton in Hx'. congruence.
Qed.
End DictFacts.

Lemma process_tick_unfold (tick_data : Tick) (s : ExecutionSimulator) :
  process_tick tick_data s
  = fold_each (strategies (strategy_manager s)) (dispatch_one tick_data) [] s.
Proof. reflexivity. Qed.

Lemma dispatch_one_eq (tick_data : Tick) (signals : list (string * Signal))
    (item : string * strategy_func) (s : ExecutionSimulator) :
  dispatch_one tick_data signals item s
  = match answer tick_data s item with
    | Ok (Some sg) => (Ok (signals ++ [(fst item, sg)]), s)
    | Ok None => (Ok signals, s)
    | Raise e => (Raise e, s)
    end.
Proof.
  unfold dispatch_one, answer, strategy_positions, bind, _get_strategy_positions,
    gets, lift, ret.
  destruct (snd item tick_data _) as [[sg|]|e]; reflexivity.
Qed.

Lemma dispatch_all_return (tick_data : Tick) (items : list (string * strategy_func))
    (signals : list (string * Signal)) (s : ExecutionSimulator) :
  Forall (returns tick_data s) items ->
  fold_each items (dispatch_one tick_data) signals s
  = (Ok (signals ++ omap (emitted tick_data s) items), s).
Proof.
  intros Hall. revert signals.
  induction Hall as [|item items [o Ho] _ IH]; intros signals; simpl.
  - unfold ret. now rewrite app_nil_r.
  - unfold bind. rewrite dispatch_one_eq. unfold emitted. rewrite Ho.
    destruct o as [sg|]; rewrite IH; [|reflexivity].
    now rewrite <- app_assoc.
Qed.

Lemma dispatch_raise (tick_data : Tick) (pre rest : list (string * strategy_func))
    (item : string * strategy_func) (x : exn)
    (signals : list (string * Signal)) (s : ExecutionSimulator) :
  Forall (returns tick_data s) pre ->
  answer tick_data s item = Raise x ->
  fold_each (pre ++ item :: rest) (dispatch_one tick_data) signals s = (Raise x, s).
Proof.
  intros Hall Hx. revert signals.
  induction Hall as [|item' items [o Ho] _ IH]; intros signals; simpl.
  - unfold bind. now rewrite dispatch_one_eq, Hx.
  - unfold bind. rewrite dispatch_one_eq, Ho. destruct o; apply IH.
Qed.

Lemma dispatch_state (tick_data : Tick) (items : list (string * strategy_func))
    (signals : list (string * Signal)) (s : ExecutionSimulator) :
  snd (fold_each items (dispatch_one tick_data) signals s) = s.
Proof.
  revert signals. induction items as [|item items IH]; intros signals; simpl.
  - reflexivity.
  - unfold bind. rewrite dispatch_one_eq.
    destruct (answer tick_data s item) as [[sg|]|e]; simpl; auto.
Qed.

(** ** C1: exit evaluation *)

Lemma first_seen_elem (l : list string) (x : string) : x ∈ first_seen l <-> x ∈ l.
Proof.
  induction l as [|y l IH]; simpl.
  - reflexivity.
  - rewrite !elem_of_cons, list_elem_of_filter, IH.
    destruct (decide (x = y)); tauto.
Qed.

Lemma first_seen_NoDup (l : list string) : NoDup (first_seen l).
Proof.
  induction l as [|y l IH]; simpl.
  - constructor.
  - constructor.
    + rewrite list_elem_of_filter. intros [H _]. now apply H.
    + now apply NoDup_filter.
Qed.

Lemma filter_ne_absent (l : list string) (x : string) :
  x ∉ l -> filter (fun y => y <> x) l = l.
Proof.
  induction l as [|y l IH]; intros Hx.
  - reflexivity.
  - apply not_elem_of_cons in Hx as [Hne Hx].
    rewrite filter_cons_True by congruence. now rewrite IH.
Qed.

Lemma first_seen_snoc (l : list string) (x : string) :
  first_seen (l ++ [x]) = if bool_decide (x ∈ l) then first_seen l else first_seen l ++ [x].
Proof.
  induction l as [|y l IH]; simpl.
  - reflexivity.
  - rewrite IH. destruct (decide (x = y)) as [->|Hne].
    + rewrite (bool_decide_eq_true_2 (y ∈ y :: l)) by apply list_elem_of_here.
      case_bool_decide; [reflexivity|].
      rewrite filter_app, filter_cons_False, filter_nil, app_nil_r
        by (intros Hyy; now apply Hyy).
      reflexivity.
    + case_bool_decide as Hx.
      * rewrite bool_decide_eq_true_2 by now apply list_elem_of_further.
        reflexivity.
      * rewrite bool_decide_eq_false_2
          by (rewrite elem_of_cons; intros [?|?]; congruence).
        rewrite filter_app, filter_cons_True, filter_nil by congruence.
        reflexivity.
Qed.

Lemma dict_get_fmap (g : string -> list ref) (keys : list string) (k : string) :
  dict_get k ((fun sym => (sym, g sym)) <$> keys)
  = if bool_decide (k ∈ keys) then Some (g k) else None.
Proof.
  induction keys as [|k' keys IH]; csimpl.
  - reflexivity.
  - destruct (String.eqb_spec k' k) as [->|Hne].
    + now rewrite bool_decide_eq_true_2 by apply list_elem_of_here.
    + rewrite IH. apply (f_equal (fun b : bool => if b then Some (g k) else None)).
      apply bool_decide_ext. rewrite elem_of_cons.
      split; [auto|intros [?|?]; [congruence|assumption]].
Qed.

Lemma fmap_keys (g : string -> list ref) (keys : list string) :
  ((fun sym => (sym, g sym)) <$> keys).*1 = keys.
Proof. rewrite <- list_fmap_compose. apply list_fmap_id. Qed.

Lemma group_step_groups_of (h : list Position) (l : list ref) (r : ref) :
  group_step h (groups_of h l) r = groups_of h (l ++ [r]).
Proof.
  unfold group_step, groups_of. fold (symbol_of h r).
  set (sym := symbol_of h r).
  rewrite fmap_app. change (symbol_of h <$> [r]) with [sym].
  rewrite first_seen_snoc.
  rewrite dict_in_elem, fmap_keys.
  set (keys := first_seen (symbol_of h <$> l)).
  assert (Hkeys : NoDup keys) by apply first_seen_NoDup.
  rewrite <- (bool_decide_ext (sym ∈ keys) (sym ∈ symbol_of h <$> l))
    by apply first_seen_elem.
  case_bool_decide as Hin.
  - rewrite dict_get_fmap, bool_decide_eq_true_2 by assumption. simpl.
    rewrite dict_set_replace by now rewrite fmap_keys.
    rewrite <- list_fmap_compose. apply list_fmap_ext. intros _ s _. simpl.
    unfold group_of. rewrite filter_app.
    destruct (String.eqb_spec s sym) as [->|Hne].
    + now rewrite filter_cons_True, filter_nil by reflexivity.
    + now rewrite filter_cons_False, filter_nil, app_nil_r by (fold sym; congruence).
  - rewrite dict_get_set_eq, dict_set_set. simpl.
    rewrite dict_set_new by now rewrite fmap_keys.
    rewrite fmap_app. simpl. f_equal.
    + apply list_fmap_ext. intros i s Hs. f_equal.
      unfold group_of. rewrite filter_app, filter_cons_False, filter_nil, app_nil_r;
        [reflexivity|].
      fold sym. intros ->. apply Hin. eapply list_elem_of_lookup_2; eassumption.
    + f_equal. f_equal. unfold group_of. rewrite filter_app.
      rewrite filter_cons_True, filter_nil by reflexivity.
      assert (Hnone : filter (fun r0 => symbol_of h r0 = sym) l = []).
      { apply elem_of_nil_inv. intros x Hx. apply list_elem_of_filter in Hx as [Hs Hx].
        apply Hin. apply first_seen_elem. rewrite <- Hs.
        now apply list_elem_of_fmap_2. }
      now rewrite Hnone.
Qed.

Lemma group_by_symbol_groups_of (h : list Position) (positions : list ref) :
  group_by_symbol h positions = groups_of h positions.
Proof.
  change (group_by_symbol h positions) with (fold_left (group_step h) positions []).
  induction positions as [|r l IH] using rev_ind.
  - reflexivity.
  - rewrite fold_left_app. simpl. rewrite IH. apply group_step_groups_of.
Qed.

(** Three positions on X, Y, X: the group of X comes first and holds the
    first and the third, the group of Y holds the second. *)
Example grouping_order :
  let h := [mkPosition "X" 100 0 1 1 "A" None 0 0 None None None;
            mkPosition "Y" 50 0 (-1) 2 "B" None 0 0 None None None;
            mkPosition "X" 101 1 1 1 "B" None 0 0 None None None] in
  group_by_symbol h [0; 1; 2] = [("X", [0; 2]); ("Y", [1])].
Proof. reflexivity. Qed.

Lemma evaluate_exit_conditions_unfold (s : ExecutionSimulator) :
  evaluate_exit_conditions s
  = match active_positions (strategy_manager s) with
    | [] => (Ok [], s)
    | _ :: _ =>
        fold_each (group_by_symbol (heap s) (active_positions (strategy_manager s)))
          exit_one [] s
    end.
Proof.
  unfold evaluate_exit_conditions, bind, gets.
  destruct (active_positions (strategy_manager s)); reflexivity.
Qed.

Lemma map_result_priced (h : list Position) (g : list ref) :
  Forall (priced h) g ->
  map_result (fun r => position_profit_loss (deref h r)) g
  = Ok ((fun r => unrealized (deref h r)) <$> g).
Proof.
  induction 1 as [|r g [c Hc] _ IH]; simpl.
  - reflexivity.
  - rewrite IH. unfold position_profit_loss, unrealized. csimpl.
    now rewrite Hc.
Qed.

Lemma map_result_unpriced (h : list Position) (g : list ref) :
  Exists (fun r => current_price (deref h r) = None) g ->
  map_result (fun r => position_profit_loss (deref h r)) g = Raise TypeError.
Proof.
  induction 1 as [r g Hr|r g _ IH]; simpl.
  - unfold position_profit_loss. now rewrite Hr.
  - rewrite IH. unfold position_profit_loss.
    now destruct (current_price (deref h r)).
Qed.

Lemma unpriced_or_priced (h : list Position) (g : list ref) :
  Forall (priced h) g \/ Exists (fun r => current_price (deref h r) = None) g.
Proof.
  induction g as [|r g [IH|IH]].
  - left. constructor.
  - destruct (current_price (deref h r)) as [c|] eqn:E.
    + left. constructor; [now exists c|assumption].
    + right. now constructor.
  - right. now constructor.
Qed.

Lemma exit_one_priced (h_th : Q) (acc : list (ref * string)) (item : string * list ref)
    (s : ExecutionSimulator) :
  risk_settings (portfolio_evaluator s) !! "mfe_exit_threshold" = Some h_th ->
  Forall (priced (heap s)) (snd item) ->
  exit_one acc item s = (Ok (acc ++ flagged (heap s) h_th (snd item)), s).
Proof.
  intros Hth Hg. unfold exit_one, bind, gets, lift.
  rewrite (map_result_priced _ _ Hg). unfold flagged.
  set (g := snd item).
  destruct (Qltb 0 (pysum _)) eqn:E1.
  - unfold risk_setting, bind, gets. rewrite Hth. unfold ret.
    destruct (Qltb (pysum _) _) eqn:E2.
    + rewrite decide_True; [reflexivity|]. split.
      * apply Qltb_lt in E1. now rewrite pysum_Qsum in E1.
      * apply Qltb_lt in E2. now rewrite !pysum_Qsum in E2.
    + rewrite decide_False; [now rewrite app_nil_r|]. intros [_ H2].
      apply Qltb_ge in E2. rewrite !pysum_Qsum in E2.
      exact (Qlt_not_le _ _ H2 E2).
  - rewrite decide_False; [now rewrite app_nil_r|]. intros [H1 _].
    apply Qltb_ge in E1. rewrite pysum_Qsum in E1.
    exact (Qlt_not_le _ _ H1 E1).
Qed.

Lemma exit_one_unpriced (acc : list (ref * string)) (item : string * list ref)
    (s : ExecutionSimulator) :
  Exists (fun r => current_price (deref (heap s) r) = None) (snd item) ->
  exit_one acc item s = (Raise TypeError, s).
Proof.
  intros Hg. unfold exit_one, bind, gets, lift.
  now rewrite (map_result_unpriced _ _ Hg).
Qed.

Lemma exits_priced (th : Q) (groups : list (string * list ref))
    (acc : list (ref * string)) (s : ExecutionSimulator) :
  risk_settings (portfolio_evaluator s) !! "mfe_exit_threshold" = Some th ->
  Forall (fun item => Forall (priced (heap s)) (snd item)) groups ->
  fold_each groups exit_one acc s
  = (Ok (acc ++ (groups ≫= fun item => flagged (heap s) th (snd item))), s).
Proof.
  intros Hth Hall. revert acc.
  induction Hall as [|item groups Hitem _ IH]; intros acc; simpl.
  - unfold ret. now rewrite app_nil_r.
  - unfold bind. rewrite (exit_one_priced th) by assumption.
    rewrite IH. now rewrite <- app_assoc.
Qed.

Lemma exits_unpriced (th : Q) (groups : list (string * list ref))
    (acc : list (ref * string)) (s : ExecutionSimulator) :
  risk_settings (portfolio_evaluator s) !! "mfe_exit_threshold" = Some th ->
  Exists (fun item => Exists (fun r => current_price (deref (heap s) r) = None) (snd item))
    groups ->
  fold_each groups exit_one acc s = (Raise TypeError, s).
Proof.
  intros Hth Hex. revert acc.
  induction Hex as [item groups Hitem|item groups _ IH]; intros acc; simpl; unfold bind.
  - now rewrite exit_one_unpriced.
  - destruct (unpriced_or_priced (heap s) (snd item)) as [Hp|Hu].
    + rewrite (exit_one_priced th) by assumption. apply IH.
    + now rewrite exit_one_unpriced.
Qed.

Lemma groups_of_priced (h : list Position) (positions : list ref) :
  Forall (priced h) positions ->
  Forall (fun item => Forall (priced h) (snd item)) (groups_of h positions).
Proof.
  intros Hall. unfold groups_of. apply Forall_fmap, Forall_forall.
  intros sym _. simpl. unfold group_of. apply Forall_forall. intros r Hr.
  apply list_elem_of_filter in Hr as [_ Hr].
  rewrite Forall_forall in Hall. now apply Hall.
Qed.

Lemma groups_of_unpriced (h : list Position) (positions : list ref) :
  Exists (fun r => current_price (deref h r) = None) positions ->
  Exists (fun item => Exists (fun r => current_price (deref h r) = None) (snd item))
    (groups_of h positions).
Proof.
  rewrite !Exists_exists. intros (r & Hr & Hnone).
  exists (symbol_of h r, group_of h positions (symbol_of h r)). split.
  - unfold groups_of. apply list_elem_of_fmap_2'
      with (x := symbol_of h r); [|reflexivity].
    apply first_seen_elem. now apply list_elem_of_fmap_2.
  - simpl. apply Exists_exists. exists r. split; [|assumption].
    unfold group_of. now apply list_elem_of_filter.
Qed.

(** Exit evaluation when a threshold is configured: it reads the state
    and leaves it as it is; it returns the flagged groups when every
    active position has a current price, and raises a TypeError
    otherwise. *)
Lemma evaluate_exit_conditions_eq (th : Q) (s : ExecutionSimulator) :
  risk_settings (portfolio_evaluator s) !! "mfe_exit_threshold" = Some th ->
  let h := heap s in
  let positions := active_positions (strategy_manager s) in
  (Forall (priced h) positions ->
   evaluate_exit_conditions s
   = (Ok (first_seen (symbol_of h <$> positions) ≫=
            fun sym => flagged h th (group_of h positions sym)), s))
  /\ (Exists (fun r => current_price (deref h r) = None) positions ->
      evaluate_exit_conditions s = (Raise TypeError, s)).
Proof.
  intros Hth h positions. rewrite evaluate_exit_conditions_unfold.
  fold positions. fold h. rewrite group_by_symbol_groups_of. split.
  - intros Hall. destruct positions as [|r l] eqn:E; [reflexivity|]. rewrite <- E in *.
    rewrite (exits_priced th) by (try apply groups_of_priced; assumption).
    simpl. f_equal. f_equal. unfold groups_of. fold h.
    generalize (first_seen (symbol_of h <$> positions)). intros keys.
    induction keys as [|k keys IH]; csimpl; [reflexivity|]. now rewrite IH.
  - intros Hex. destruct positions as [|r l] eqn:E; [now apply Exists_nil in Hex|].
    rewrite <- E in *. apply (exits_unpriced th); [assumption|].
    now apply groups_of_unpriced.
Qed.

(** The exceptions of the exit evaluation: the subtraction from an
    unset current price, and the lookup of a threshold that is not in
    the settings when a group with a positive total MFE asks for it. *)
Lemma map_result_raise (h : list Position) (g : list ref) (e : exn) :
  map_result (fun r => position_profit_loss (deref h r)) g = Raise e -> e = TypeError.
Proof.
  induction g as [|r g IH]; simpl; [discriminate|].
  unfold position_profit_loss at 1.
  destruct (current_price (deref h r)); [|now intros [= <-]].
  destruct (map_result _ g) as [ys|e']; [discriminate|].
  intros [= <-]. now apply IH.
Qed.

Lemma exit_one_raise (acc : list (ref * string)) (item : string * list ref)
    (s : ExecutionSimulator) (e : exn) :
  fst (exit_one acc item s) = Raise e ->
  e = TypeError \/ e = KeyError "mfe_exit_threshold".
Proof.
  unfold exit_one, bind, gets, lift.
  destruct (map_result _ (snd item)) as [terms|e'] eqn:Em.
  - destruct (Qltb 0 (pysum _)).
    + unfold risk_setting, bind, gets.
      destruct (risk_settings (portfolio_evaluator s) !! "mfe_exit_threshold"); simpl.
      * destruct (Qltb _ _); discriminate.
      * intros [= <-]. now right.
    + discriminate.
  - simpl. intros [= <-]. left. exact (map_result_raise _ _ _ Em).
Qed.

Lemma exit_one_state (acc : list (ref * string)) (item : string * list ref)
    (s : ExecutionSimulator) :
  snd (exit_one acc item s) = s.
Proof.
  unfold exit_one, bind, gets, lift.
  destruct (map_result _ (snd item)) as [terms|e']; [|reflexivity].
  destruct (Qltb 0 (pysum _)).
  - unfold risk_setting, bind, gets.
    destruct (risk_settings (portfolio_evaluator s) !! "mfe_exit_threshold"); simpl;
      [|reflexivity].
    destruct (Qltb _ _); reflexivity.
  - reflexivity.
Qed.

Lemma evaluate_exit_conditions_raise (s : ExecutionSimulator) (e : exn) :
  fst (evaluate_exit_conditions s) = Raise e ->
  e = TypeError \/ e = KeyError "mfe_exit_threshold".
Proof.
  rewrite evaluate_exit_conditions_unfold.
  destruct (active_positions (strategy_manager s)) as [|r l]; [discriminate|].
  generalize (group_by_symbol (heap s) (r :: l)) (@nil (ref * string)).
  intros groups. induction groups as [|item groups IH]; intros acc; simpl.
  - discriminate.
  - unfold bind. pose proof (exit_one_raise acc item s) as Hone.
    pose proof (exit_one_state acc item s) as Hst.
    destruct (exit_one acc item s) as [[acc'|e'] s']; simpl in *.
    + subst s'. apply IH.
    + intros [= <-]. now apply Hone.
Qed.

(** C1.  The evaluation is wrong on a non-empty active set that holds a
    position no tick has priced yet.  The book is the one of a fresh
    simulator after the tick that opens its first position: the position
    is active, its current price is unset and its MFE is 0, so that the
    total MFE of its group is 0 and the rule of C1 flags nothing.  The
    code raises a TypeError at the subtraction of the entry price from
    the unset current price and returns no list.  On the same book
    [calculate_portfolio_metrics], which guards the same subtraction,
    returns. *)
Theorem evaluate_exit_conditions_unset_price :
  let s1 := snd (process_tick_data (tick_at "A" 100 1)
                   (fresh_simulator [("S", buy_when_flat)])) in
  reachable s1
  /\ active_positions (strategy_manager s1) = [0]
  /\ heap s1 !! 0 = Some (mkPosition "A" 100 1 1 1 "S" None 0 0 None None None)
  /\ group_by_symbol (heap s1) (active_positions (strategy_manager s1)) = [("A", [0])]
  /\ pysum (map (fun r => max_favorable_excursion (deref (heap s1) r)) [0]) = 0%Q
  /\ evaluate_exit_conditions s1 = (Raise TypeError, s1)
  /\ (forall flags, fst (evaluate_exit_conditions s1) <> Ok flags)
  /\ exists metrics,
       fst (calculate_portfolio_metrics s1) = Ok metrics
       /\ total_positions metrics = 1
       /\ total_profit_loss metrics = 0%Q.
Proof.
  cbv zeta. split; [|split; [|split; [|split; [|split; [|split; [|split]]]]]].
  - apply reachable_tick. apply (reachable_register _ "S" buy_when_flat).
    apply (reachable_init {[ "mfe_exit_threshold" := (1 # 2)%Q ]}). reflexivity.
  - reflexivity.
  - reflexivity.
  - reflexivity.
  - reflexivity.
  - reflexivity.
  - intros flags H. discriminate H.
  - eexists. split; [reflexivity|]. split; reflexivity.
Qed.

(** ** C6: construction of the evaluator *)

Lemma PortfolioEvaluator__init__unfold (settings : gmap string Q) :
  PortfolioEvaluator__init__ settings
  = match settings !! "mfe_exit_threshold" with
    | None => Raise (ValueError "Missing required risk setting: mfe_exit_threshold")
    | Some _ => Ok (mkPortfolioEvaluator settings)
    end.
Proof. reflexivity. Qed.

(** C6 (amended).  The constructor fails when the key
    [mfe_exit_threshold] is absent; with the key present it succeeds for
    every value, in (0,1] or not.  The check is made by the constructor,
    never per evaluation: whatever the settings are when
    [evaluate_exit_conditions] is called, it raises no ValueError; it
    can only raise the TypeError of an unset current price or the
    KeyError of its own lookup of the key. *)
Theorem PortfolioEvaluator__init__spec :
  (forall settings : gmap string Q,
     settings !! "mfe_exit_threshold" = None ->
     PortfolioEvaluator__init__ settings
     = Raise (ValueError "Missing required risk setting: mfe_exit_threshold"))
  /\ (forall (settings : gmap string Q) (th : Q),
        settings !! "mfe_exit_threshold" = Some th ->
        PortfolioEvaluator__init__ settings = Ok (mkPortfolioEvaluator settings))
  /\ (forall (s : ExecutionSimulator) (e : exn),
        fst (evaluate_exit_conditions s) = Raise e ->
        (forall msg : string, e <> ValueError msg)
        /\ (e = TypeError \/ e = KeyError "mfe_exit_threshold")).
Proof.
  split; [|split].
  - intros settings H. now rewrite PortfolioEvaluator__init__unfold, H.
  - intros settings th H. now rewrite PortfolioEvaluator__init__unfold, H.
  - intros s e Hraise.
    destruct (evaluate_exit_conditions_raise s e Hraise) as [->| ->].
    + split; [discriminate|now left].
    + split; [discriminate|now right].
Qed.

Lemma PortfolioEvaluator__init__spec_witness :
  PortfolioEvaluator__init__ {[ "mfe_exit_threshold" := (1 # 2)%Q ]}
  = Ok (mkPortfolioEvaluator {[ "mfe_exit_threshold" := (1 # 2)%Q ]}).
Proof.
  apply (proj1 (proj2 PortfolioEvaluator__init__spec) _ (1 # 2)%Q). reflexivity.
Defined.

(** C6 as stated fails: a threshold outside (0,1] is accepted. *)
Lemma PortfolioEvaluator__init__out_of_range :
  ~ (0 < 2 /\ 2 <= 1)%Q
  /\ PortfolioEvaluator__init__ {[ "mfe_exit_threshold" := 2%Q ]}
     = Ok (mkPortfolioEvaluator {[ "mfe_exit_threshold" := 2%Q ]}).
Proof.
  split; [|reflexivity]. intros [_ H]. now apply Qle_bool_iff in H.
Qed.

(** ** The pipeline *)

Lemma process_tick_data_unfold (tick : Tick) :
  process_tick_data tick
  = (run! validate tick in
     run! update_positions tick in
     let! exit_signals := evaluate_exit_conditions in
     run! for_each exit_signals (close_one tick) in
     let! new_signals := process_tick tick in
     run! for_each new_signals (open_one tick) in
     calculate_portfolio_metrics).
Proof. reflexivity. Qed.

Lemma validate_valid (tick : Tick) (s : ExecutionSimulator) :
  valid_tick tick -> validate tick s = (Ok tt, s).
Proof.
  intros ([sym Hsym] & [px Hpx] & [ts Hts]). destruct tick; simpl in *. now subst.
Qed.

Lemma update_positions_valid (tick : Tick) (s : ExecutionSimulator) :
  valid_tick tick ->
  exists h' : list Position,
    update_positions tick s = (Ok tt, set_heap h' s)
    /\ length h' = length (heap s)
    /\ forall (r : ref) (p : Position),
         heap s !! r = Some p ->
         h' !! r = Some p \/
         (r ∈ active_positions (strategy_manager s)
          /\ Some (symbol p) = tick_symbol tick
          /\ exists px, tick_price tick = Some px /\ h' !! r = Some (tick_update px p)).
Proof.
  intros (_ & [px Hpx] & _).
  rewrite update_positions_unfold, (for_each_update tick px) by assumption.
  eexists. split; [reflexivity|]. split.
  - generalize (heap s).
    induction (active_positions (strategy_manager s)) as [|x l IH]; intros h; simpl.
    + reflexivity.
    + now rewrite IH, length_alter.
  - intros r p Hr. rewrite foldl_alter_lookup by apply tick_update_if_idem.
    rewrite Hr. case_bool_decide as Hin; [|now left]. simpl. unfold tick_update_if.
    case_bool_decide as Hsym; [|now left]. right. eauto.
Qed.

(** ** C10: exit evaluation is partial *)

(** C10.  With a threshold configured, exit evaluation raises a
    TypeError as soon as one active position has no current price.
    Hence [process_tick_data] fails on a valid tick whenever an active
    position on another instrument was never ticked; this happens from a
    fresh simulator after a valid tick on A that opens a position and a
    valid tick on B. *)
Theorem exit_evaluation_partial :
  (forall (s : ExecutionSimulator) (th : Q),
     risk_settings (portfolio_evaluator s) !! "mfe_exit_threshold" = Some th ->
     Exists (fun r => current_price (deref (heap s) r) = None)
       (active_positions (strategy_manager s)) ->
     evaluate_exit_conditions s = (Raise TypeError, s))
  /\ (forall (s : ExecutionSimulator) (th : Q) (tick : Tick) (r : ref) (p : Position),
        risk_settings (portfolio_evaluator s) !! "mfe_exit_threshold" = Some th ->
        valid_tick tick ->
        r ∈ active_positions (strategy_manager s) ->
        heap s !! r = Some p ->
        current_price p = None ->
        Some (symbol p) <> tick_symbol tick ->
        fst (process_tick_data tick s) = Raise TypeError)
  /\ (let s0 := fresh_simulator [("S", buy_when_flat)] in
      let s1 := snd (process_tick_data (tick_at "A" 100 1) s0) in
      valid_tick (tick_at "A" 100 1) /\ valid_tick (tick_at "B" 50 2)
      /\ (exists metrics, fst (process_tick_data (tick_at "A" 100 1) s0) = Ok metrics)
      /\ active_positions (strategy_manager s1) = [0]
      /\ fst (process_tick_data (tick_at "B" 50 2) s1) = Raise TypeError).
Proof.
  split; [|split].
  - intros s th Hth Hex. now apply (evaluate_exit_conditions_eq th s Hth).
  - intros s th tick r p Hth Hvalid Hin Hr Hnone Hsym.
    rewrite process_tick_data_unfold. unfold bind at 1.
    rewrite validate_valid by assumption. unfold bind at 1.
    destruct (update_positions_valid tick s Hvalid) as (h' & -> & _ & Hh').
    unfold bind at 1.
    assert (Hr' : h' !! r = Some p).
    { destruct (Hh' r p Hr) as [H|(_ & H & _)]; [assumption|contradiction]. }
    destruct (evaluate_exit_conditions_eq th (set_heap h' s) Hth) as [_ Hbad].
    rewrite Hbad; [reflexivity|]. simpl.
    apply Exists_exists. exists r. split; [assumption|].
    unfold deref. now rewrite Hr'.
  - simpl. split; [|split; [|split; [|split]]].
    + repeat split; eexists; reflexivity.
    + repeat split; eexists; reflexivity.
    + eexists. vm_compute. reflexivity.
    + reflexivity.
    + reflexivity.
Qed.

Lemma exit_evaluation_partial_witness :
  evaluate_exit_conditions (book_of [long_at_100] [0])
  = (Raise TypeError, book_of [long_at_100] [0]).
Proof.
  apply (proj1 exit_evaluation_partial (book_of [long_at_100] [0]) (1 # 2)%Q).
  - reflexivity.
  - constructor. reflexivity.
Defined.

Lemma process_tick_data_close_flagged (tick : Tick) (s : ExecutionSimulator) :
  process_tick_data tick s
  = (run! close_flagged tick in
     let! new_signals := process_tick tick in
     run! for_each new_signals (open_one tick) in
     calculate_portfolio_metrics) s.
Proof.
  rewrite process_tick_data_unfold. unfold close_flagged, bind.
  destruct (validate tick s) as [[[]|e] s1]; [|reflexivity].
  destruct (update_positions tick s1) as [[[]|e] s2]; [|reflexivity].
  destruct (evaluate_exit_conditions s2) as [[exits|e] s3]; [|reflexivity].
  destruct (for_each exits (close_one tick) s3) as [[[]|e] s4]; reflexivity.
Qed.

(** ** C5: a failing strategy *)

(** C5 (amended).  When the strategy in some slot raises and the ones
    before it return, the dispatch raises that exception and leaves the
    state as it is, whatever strategies are registered after the failing
    one: they are not dispatched.  The exception also ends
    [process_tick_data]: no position is opened and no metrics are
    returned for that tick, the state being the one after the closes. *)
Theorem process_tick_failing_strategy
    (tick : Tick) (s : ExecutionSimulator)
    (pre rest : list (string * strategy_func)) (item : string * strategy_func) (x : exn) :
  strategies (strategy_manager s) = pre ++ item :: rest ->
  Forall (returns tick s) pre ->
  answer tick s item = Raise x ->
  process_tick tick s = (Raise x, s)
  /\ forall s0 : ExecutionSimulator,
       close_flagged tick s0 = (Ok tt, s) ->
       process_tick_data tick s0 = (Raise x, s).
Proof.
  intros Hreg Hpre Hx.
  assert (H : process_tick tick s = (Raise x, s)).
  { rewrite process_tick_unfold, Hreg. now apply dispatch_raise. }
  split; [exact H|]. intros s0 Hs0.
  rewrite process_tick_data_close_flagged. unfold bind at 1. rewrite Hs0.
  unfold bind at 1. now rewrite H.
Qed.

Lemma process_tick_failing_strategy_witness :
  process_tick (tick_at "X" 100 1) (fresh_simulator [("A", failing); ("B", always_buy)])
  = (Raise (StrategyFailure "boom"),
     fresh_simulator [("A", failing); ("B", always_buy)]).
Proof.
  apply (process_tick_failing_strategy (tick_at "X" 100 1)
           (fresh_simulator [("A", failing); ("B", always_buy)])
           [] [("B", always_buy)] ("A", failing) (StrategyFailure "boom")).
  - reflexivity.
  - constructor.
  - reflexivity.
Defined.

(** C5 as stated fails: with A failing and B ready to buy, the dispatch
    and the pipeline end with the exception of A, and B opens nothing. *)
Lemma failing_strategy_aborts_dispatch :
  let s := fresh_simulator [("A", failing); ("B", always_buy)] in
  let tick := tick_at "X" 100 1 in
  answer tick s ("B", always_buy) = Ok (Some buy_signal)
  /\ ~ (exists signals, fst (process_tick tick s) = Ok signals)
  /\ ~ (exists metrics, fst (process_tick_data tick s) = Ok metrics)
  /\ process_tick_data tick s = (Raise (StrategyFailure "boom"), s).
Proof.
  simpl. split; [reflexivity|]. split; [|split].
  - intros [signals H]. discriminate H.
  - intros [metrics H]. vm_compute in H. discriminate H.
  - reflexivity.
Qed.

(** ** C9: registration order and dispatch *)

(** C9.  [register_strategy] changes the registry only: a new
    identifier goes last, a registered identifier keeps its slot and
    gets the new callable, and the identifiers stay distinct.
    [process_tick] reads the state and leaves it as it is, so that a
    second call returns what the first returned; when every strategy
    returns, the result is the list of (identifier, signal), in registry
    order, of exactly the strategies that returned a signal.  With A
    then B registered and a signal from B only, the result is
    [("B", signal)] and the position opened has strategy B. *)
Theorem register_and_dispatch_order :
  (forall (s : ExecutionSimulator) (sid : string) (f : strategy_func),
     let d := strategies (strategy_manager s) in
     let s' := snd (register_strategy sid f s) in
     let d' := strategies (strategy_manager s') in
     fst (register_strategy sid f s) = Ok tt
     /\ s' = set_strategies d' s
     /\ (NoDup d.*1 -> NoDup d'.*1)
     /\ (sid ∉ d.*1 -> d' = d ++ [(sid, f)])
     /\ (NoDup d.*1 -> sid ∈ d.*1 ->
         d'.*1 = d.*1
         /\ forall (i : nat) (k : string) (g : strategy_func),
              d !! i = Some (k, g) ->
              d' !! i = Some (k, if decide (k = sid) then f else g)))
  /\ (forall (s : ExecutionSimulator) (tick : Tick),
        snd (process_tick tick s) = s
        /\ process_tick tick (snd (process_tick tick s)) = process_tick tick s
        /\ (Forall (returns tick s) (strategies (strategy_manager s)) ->
            fst (process_tick tick s)
            = Ok (omap (emitted tick s) (strategies (strategy_manager s)))))
  /\ (let s := fresh_simulator [("A", idle); ("B", always_buy)] in
      let tick := tick_at "X" 100 1 in
      (strategies (strategy_manager s)).*1 = ["A"; "B"]
      /\ fst (process_tick tick s) = Ok [("B", buy_signal)]
      /\ strategy_id <$> heap (snd (process_tick_data tick s)) = ["B"]).
Proof.
  split; [|split].
  - intros s sid f d s' d'. subst s' d'. simpl. fold d.
    split; [reflexivity|]. split; [reflexivity|]. split; [apply dict_set_NoDup|].
    split; [apply dict_set_new|]. intros Hnd Hin. split.
    + rewrite dict_set_keys, dict_in_elem. now rewrite bool_decide_eq_true_2.
    + intros i k g Hi. rewrite dict_set_replace by assumption.
      rewrite list_lookup_fmap, Hi. simpl.
      destruct (String.eqb_spec k sid) as [->|Hne].
      * now rewrite decide_True.
      * now rewrite decide_False.
  - intros s tick.
    assert (Hstate : snd (process_tick tick s) = s)
      by (rewrite process_tick_unfold; apply dispatch_state).
    split; [exact Hstate|]. split; [now rewrite Hstate|].
    intros Hall. rewrite process_tick_unfold, dispatch_all_return by assumption.
    reflexivity.
  - simpl. split; [reflexivity|]. split; reflexivity.
Qed.

Lemma register_and_dispatch_order_witness :
  strategies (strategy_manager
                (snd (register_strategy "C" idle
                        (fresh_simulator [("A", idle); ("B", always_buy)]))))
  = strategies (strategy_manager (fresh_simulator [("A", idle); ("B", always_buy)]))
    ++ [("C", idle)].
Proof.
  destruct (proj1 register_and_dispatch_order
              (fresh_simulator [("A", idle); ("B", always_buy)]) "C" idle)
    as (_ & _ & _ & Hnew & _).
  apply Hnew. simpl. rewrite !not_elem_of_cons. repeat split; try discriminate.
  apply not_elem_of_nil.
Defined.

(** ** State changes of monadic code *)

Section Post.
Context (R : ExecutionSimulator -> ExecutionSimulator -> Prop).
Context `{!Reflexive R, !Transitive R}.

Lemma post_ret {A} (a : A) : post R (ret a).
Proof. intros s. reflexivity. Qed.

Lemma post_raise {A} (e : exn) : post R (@raise A e).
Proof. intros s. reflexivity. Qed.

Lemma post_gets {A} (f : ExecutionSimulator -> A) : post R (gets f).
Proof. intros s. reflexivity. Qed.

Lemma post_lift {A} (r : result A) : post R (lift r).
Proof. intros s. reflexivity. Qed.

Lemma post_tick_item {A} (key : string) (v : option A) : post R (tick_item key v).
Proof. destruct v; [apply post_ret|apply post_raise]. Qed.

Lemma post_bind {A B} (m : M A) (f : A -> M B) :
  post R m -> (forall a, post R (f a)) -> post R (bind m f).
Proof.
  intros Hm Hf s. unfold bind. specialize (Hm s).
  destruct (m s) as [[a|e] s1]; simpl in *; [|exact Hm].
  transitivity s1; [exact Hm|apply Hf].
Qed.

Lemma post_for_each {A} (l : list A) (body : A -> M unit) :
  (forall x, x ∈ l -> post R (body x)) -> post R (for_each l body).
Proof.
  induction l as [|x l IH]; intros Hbody; simpl.
  - apply post_ret.
  - apply post_bind.
    + apply Hbody, list_elem_of_here.
    + intros _. apply IH. intros y Hy. now apply Hbody, list_elem_of_further.
Qed.

Lemma post_fold_each {A B} (l : list A) (body : B -> A -> M B) (acc : B) :
  (forall acc x, post R (body acc x)) -> post R (fold_each l body acc).
Proof.
  intros Hbody. revert acc. induction l as [|x l IH]; intros acc; simpl.
  - apply post_ret.
  - apply post_bind; [apply Hbody|intros acc'; apply IH].
Qed.
End Post.

(** Code that only reads the state. *)
Lemma post_eq_process_tick (tick : Tick) : post eq (process_tick tick).
Proof. intros s. symmetry. rewrite process_tick_unfold. apply dispatch_state. Qed.

Lemma post_eq_risk_setting (key : string) : post eq (risk_setting key).
Proof.
  intros s. unfold risk_setting, bind, gets.
  now destruct (risk_settings (portfolio_evaluator s) !! key).
Qed.

Lemma post_eq_exit_one (acc : list (ref * string)) (item : string * list ref) :
  post eq (exit_one acc item).
Proof.
  intros s. unfold exit_one, bind, gets, lift.
  destruct (map_result _ _) as [terms|e]; [|reflexivity].
  destruct (Qltb 0 _).
  - unfold risk_setting, bind, gets.
    destruct (risk_settings (portfolio_evaluator s) !! _) as [th|]; [|reflexivity].
    simpl. now destruct (Qltb _ _).
  - reflexivity.
Qed.

Lemma post_eq_evaluate_exit_conditions : post eq evaluate_exit_conditions.
Proof.
  intros s. rewrite evaluate_exit_conditions_unfold.
  destruct (active_positions (strategy_manager s)) as [|r l]; [reflexivity|].
  apply (post_fold_each eq). apply post_eq_exit_one.
Qed.

Lemma post_eq_calculate_portfolio_metrics : post eq calculate_portfolio_metrics.
Proof. intros s. reflexivity. Qed.

Lemma post_eq_validate (tick : Tick) : post eq (validate tick).
Proof.
  apply (post_for_each eq). intros field _.
  destruct (tick_contains field tick); [apply (post_ret eq)|apply (post_raise eq)].
Qed.

Lemma post_weaken {A} (R R' : ExecutionSimulator -> ExecutionSimulator -> Prop) (m : M A) :
  (forall s s', R s s' -> R' s s') -> post R m -> post R' m.
Proof. intros HR Hm s. apply HR, Hm. Qed.

(** ** C4: excursions *)

Lemma excursion_le_refl (p : Position) : excursion_le p p.
Proof. split; apply Qle_refl. Qed.

Lemma excursion_le_trans (p q r : Position) :
  excursion_le p q -> excursion_le q r -> excursion_le p r.
Proof. intros [H1 H2] [H3 H4]. split; eapply Qle_trans; eassumption. Qed.

#[global] Instance lifetime_step_refl : Reflexive lifetime_step.
Proof.
  intros s. split.
  - intros r p Hr. exists p. split; [assumption|apply excursion_le_refl].
  - intros r p' Hlen Hr. apply lookup_lt_Some in Hr. lia.
Qed.

#[global] Instance lifetime_step_trans : Transitive lifetime_step.
Proof.
  intros s1 s2 s3 [Hg12 Hn12] [Hg23 Hn23]. split.
  - intros r p Hr. destruct (Hg12 r p Hr) as (p2 & Hr2 & Hle2).
    destruct (Hg23 r p2 Hr2) as (p3 & Hr3 & Hle3).
    exists p3. split; [assumption|]. eapply excursion_le_trans; eassumption.
  - intros r p3 Hlen Hr3.
    destruct (heap s2 !! r) as [p2|] eqn:Hr2.
    + destruct (Hg23 r p2 Hr2) as (p3' & Hr3' & [Hle1 Hle2]).
      rewrite Hr3 in Hr3'. injection Hr3' as <-.
      destruct (Hn12 r p2 Hlen Hr2) as [Hok1 Hok2].
      split; eapply Qle_trans; eassumption.
    + apply (Hn23 r p3); [|assumption]. apply lookup_ge_None in Hr2. exact Hr2.
Qed.

Lemma lifetime_step_same_heap (s s' : ExecutionSimulator) :
  heap s' = heap s -> lifetime_step s s'.
Proof.
  intros Hh. destruct (lifetime_step_refl s) as [H1 H2].
  split; rewrite Hh; assumption.
Qed.

Lemma lifetime_step_alter (f : Position -> Position) (r : ref) (s : ExecutionSimulator) :
  (forall p, heap s !! r = Some p -> excursion_le p (f p)) ->
  lifetime_step s (set_heap (alter f r (heap s)) s).
Proof.
  intros Hf. split; simpl.
  - intros j p Hj. rewrite list_lookup_alter. case_decide as Hrj.
    + subst j. rewrite Hj. simpl. eexists. split; [reflexivity|now apply Hf].
    + exists p. split; [assumption|apply excursion_le_refl].
  - intros j p' Hlen Hj. apply lookup_lt_Some in Hj. rewrite length_alter in Hj. lia.
Qed.

Lemma post_lifetime_update_position (r : ref) (f : Position -> Position) :
  (forall p, excursion_le p (f p)) -> post lifetime_step (update_position r f).
Proof. intros Hf s. apply lifetime_step_alter. auto. Qed.

Lemma tick_update_if_le (tick : Tick) (px : Q) (p : Position) :
  excursion_le p (tick_update_if tick px p).
Proof.
  unfold tick_update_if. case_bool_decide; [|apply excursion_le_refl].
  split; simpl; [apply Q.le_max_l|apply Q.le_min_l].
Qed.

Lemma post_lifetime_update_one (tick : Tick) (r : ref) : post lifetime_step (update_one tick r).
Proof.
  intros s. destruct (tick_price tick) as [px|] eqn:Hpx.
  - rewrite (update_one_spec tick px) by assumption. simpl.
    apply lifetime_step_alter. intros p _. apply tick_update_if_le.
  - apply lifetime_step_same_heap. unfold update_one, bind, get_position, gets.
    destruct (bool_decide _); [|reflexivity]. now rewrite Hpx.
Qed.

Lemma post_lifetime_update_positions (tick : Tick) : post lifetime_step (update_positions tick).
Proof.
  intros s. rewrite update_positions_unfold.
  apply (post_for_each lifetime_step). intros r _. apply post_lifetime_update_one.
Qed.

Lemma post_lifetime_eq {A} (m : M A) : post eq m -> post lifetime_step m.
Proof. apply post_weaken. intros s s' <-. reflexivity. Qed.

Lemma post_lifetime_list_remove (r : ref) : post lifetime_step (list_remove r).
Proof.
  intros s. apply lifetime_step_same_heap. unfold list_remove, bind, gets.
  now destruct (remove_first _ _).
Qed.

Lemma post_lifetime_close_one (tick : Tick) (item : ref * string) :
  post lifetime_step (close_one tick item).
Proof.
  unfold close_one, _close_position.
  apply (post_bind lifetime_step); [apply (post_tick_item lifetime_step)|intros px].
  apply (post_bind lifetime_step);
    [apply post_lifetime_update_position; intros p; split; apply Qle_refl|intros _].
  apply (post_bind lifetime_step); [apply (post_tick_item lifetime_step)|intros ts].
  apply (post_bind lifetime_step);
    [apply post_lifetime_update_position; intros p; split; apply Qle_refl|intros _].
  apply (post_bind lifetime_step);
    [apply post_lifetime_update_position; intros p; split; apply Qle_refl|intros _].
  apply (post_bind lifetime_step); [apply post_lifetime_list_remove|intros _].
  apply (post_bind lifetime_step); [apply (post_tick_item lifetime_step)|intros ts'].
  intros s. now apply lifetime_step_same_heap.
Qed.

(** A position is created with MFE = MAE = 0 and no current price. *)
Lemma _open_position_state (sid : string) (tick : Tick) (sz : Q) (dir : Z)
    (s : ExecutionSimulator) :
  snd (_open_position sid tick sz dir s) = s
  \/ exists sym px ts,
       tick = mkTick (Some sym) (Some px) (Some ts)
       /\ _open_position sid tick sz dir s
          = (Ok tt,
             mkExecutionSimulator
               (heap s ++ [mkPosition sym px ts dir sz sid None 0 0 None None None])
               (mkStrategyManager (strategies (strategy_manager s))
                  (active_positions (strategy_manager s) ++ [length (heap s)]))
               (portfolio_evaluator s)
               (trade_history s ++ [mkTrade "OPEN" ts (length (heap s)) None])).
Proof.
  destruct tick as [[sym|] [px|] [ts|]]; try (left; reflexivity).
  right. exists sym, px, ts. split; reflexivity.
Qed.

Lemma post_lifetime__open_position (sid : string) (tick : Tick) (sz : Q) (dir : Z) :
  post lifetime_step (_open_position sid tick sz dir).
Proof.
  intros s. destruct (_open_position_state sid tick sz dir s)
    as [H|(sym & px & ts & -> & ->)].
  - apply lifetime_step_same_heap. now rewrite H.
  - split; simpl.
    + intros r p Hr. exists p. split; [|apply excursion_le_refl].
      now apply lookup_app_l_Some.
    + intros r p' Hlen Hr. rewrite lookup_app_r in Hr by assumption.
      apply list_lookup_singleton_Some in Hr as [_ <-]. split; simpl; apply Qle_refl.
Qed.

Lemma post_lifetime_open_one (tick : Tick) (item : string * Signal) :
  post lifetime_step (open_one tick item).
Proof.
  unfold open_one. destruct (String.eqb _ "BUY").
  - apply post_lifetime__open_position.
  - destruct (String.eqb _ "SELL"); [apply post_lifetime__open_position|].
    apply (post_ret lifetime_step).
Qed.

Lemma post_lifetime_process_tick_data (tick : Tick) :
  post lifetime_step (process_tick_data tick).
Proof.
  rewrite process_tick_data_unfold.
  apply (post_bind lifetime_step); [apply post_lifetime_eq, post_eq_validate|intros _].
  apply (post_bind lifetime_step); [apply post_lifetime_update_positions|intros _].
  apply (post_bind lifetime_step);
    [apply post_lifetime_eq, post_eq_evaluate_exit_conditions|intros exits].
  apply (post_bind lifetime_step);
    [apply (post_for_each lifetime_step); intros item _; apply post_lifetime_close_one
    |intros _].
  apply (post_bind lifetime_step);
    [apply post_lifetime_eq, post_eq_process_tick|intros signals].
  apply (post_bind lifetime_step);
    [apply (post_for_each lifetime_step); intros item _; apply post_lifetime_open_one
    |intros _].
  apply post_lifetime_eq, post_eq_calculate_portfolio_metrics.
Qed.

Lemma lifetime_step_ok (s s' : ExecutionSimulator) :
  lifetime_step s s' -> Forall excursion_ok (heap s) -> Forall excursion_ok (heap s').
Proof.
  intros [Hgrow Hnew] Hok. apply Forall_lookup. intros r p' Hr'.
  destruct (heap s !! r) as [p|] eqn:Hr.
  - destruct (Hgrow r p Hr) as (p'' & Hr'' & [Hle1 Hle2]).
    rewrite Hr' in Hr''. injection Hr'' as <-.
    destruct (proj1 (Forall_lookup _ _) Hok r p Hr) as [Hok1 Hok2].
    split; eapply Qle_trans; eassumption.
  - apply (Hnew r p'); [|assumption]. now apply lookup_ge_None in Hr.
Qed.

Lemma reachable_excursion_ok (s : ExecutionSimulator) :
  reachable s -> Forall excursion_ok (heap s).
Proof.
  induction 1 as [settings pe _|s sid f _ IH|s tick _ IH].
  - constructor.
  - exact IH.
  - eapply lifetime_step_ok; [apply post_lifetime_process_tick_data|exact IH].
Qed.

Lemma run_ticks_lifetime (ticks : list Tick) (s : ExecutionSimulator) :
  lifetime_step s (run_ticks ticks s).
Proof.
  revert s. induction ticks as [|tick ticks IH]; intros s; simpl.
  - reflexivity.
  - transitivity (snd (process_tick_data tick s)); [|apply IH].
    apply post_lifetime_process_tick_data.
Qed.

Lemma run_ticks_reachable (ticks : list Tick) (s : ExecutionSimulator) :
  reachable s -> reachable (run_ticks ticks s).
Proof.
  revert s. induction ticks as [|tick ticks IH]; intros s Hs; simpl.
  - exact Hs.
  - apply IH. now constructor.
Qed.

(** C4.  A position is created with MFE = 0 and MAE = 0.  Across
    [update_positions], across [process_tick_data] and across any
    sequence of ticks, whatever the calls return, the MFE of a position
    object does not decrease and its MAE does not increase.  In every
    state that a simulator reaches, and so after every sequence of
    ticks, every position ever created has MFE >= 0 and MAE <= 0. *)
Theorem excursions_over_lifetime :
  (forall (sid sym : string) (px : Q) (ts : Z) (sz : Q) (dir : Z) (s : ExecutionSimulator),
     exists p : Position,
       heap (snd (_open_position sid (mkTick (Some sym) (Some px) (Some ts)) sz dir s))
       = heap s ++ [p]
       /\ max_favorable_excursion p = 0%Q /\ max_adverse_excursion p = 0%Q)
  /\ (forall (s : ExecutionSimulator) (r : ref) (p : Position),
        heap s !! r = Some p ->
        (forall tick : Tick,
           exists p', heap (snd (update_positions tick s)) !! r = Some p'
             /\ (max_favorable_excursion p <= max_favorable_excursion p')%Q
             /\ (max_adverse_excursion p' <= max_adverse_excursion p)%Q)
        /\ (forall tick : Tick,
              exists p', heap (snd (process_tick_data tick s)) !! r = Some p'
                /\ (max_favorable_excursion p <= max_favorable_excursion p')%Q
                /\ (max_adverse_excursion p' <= max_adverse_excursion p)%Q)
        /\ (forall ticks : list Tick,
              exists p', heap (run_ticks ticks s) !! r = Some p'
                /\ (max_favorable_excursion p <= max_favorable_excursion p')%Q
                /\ (max_adverse_excursion p' <= max_adverse_excursion p)%Q))
  /\ (forall (s : ExecutionSimulator) (ticks : list Tick) (r : ref) (p : Position),
        reachable s ->
        heap (run_ticks ticks s) !! r = Some p ->
        (0 <= max_favorable_excursion p)%Q /\ (max_adverse_excursion p <= 0)%Q).
Proof.
  split; [|split].
  - intros sid sym px ts sz dir s. eexists. split; [reflexivity|]. split; reflexivity.
  - intros s r p Hr. split; [|split].
    + intros tick. exact (proj1 (post_lifetime_update_positions tick s) r p Hr).
    + intros tick. exact (proj1 (post_lifetime_process_tick_data tick s) r p Hr).
    + intros ticks. exact (proj1 (run_ticks_lifetime ticks s) r p Hr).
  - intros s ticks r p Hs Hr.
    assert (Hok : Forall excursion_ok (heap (run_ticks ticks s)))
      by now apply reachable_excursion_ok, run_ticks_reachable.
    exact (proj1 (Forall_lookup _ _) Hok r p Hr).
Qed.

Lemma excursions_over_lifetime_witness :
  exists p',
    heap (snd (process_tick_data (tick_at "X" 95 2) book_after_110)) !! 0 = Some p'
    /\ (10 <= max_favorable_excursion p')%Q
    /\ (max_adverse_excursion p' <= 0)%Q.
Proof.
  assert (Hr : heap book_after_110 !! 0
               = Some (mkPosition "X" 100 0 1 1 "A" (Some 110%Q) 10 0 None None None))
    by reflexivity.
  exact (proj1 (proj2 (proj1 (proj2 excursions_over_lifetime) book_after_110 0 _ Hr))
           (tick_at "X" 95 2)).
Defined.

(** ** C7: metrics *)

Lemma omap_profit_loss_term (positions : list Position) :
  omap profit_loss_term positions = unrealized <$> filter truthy_price positions.
Proof.
  induction positions as [|p l IH]; csimpl; [reflexivity|].
  unfold profit_loss_term at 1. destruct (current_price p) as [c|] eqn:Hc.
  - destruct (Qeqb c 0) eqn:E.
    + apply Qeqb_eq in E. rewrite filter_cons_False; [exact IH|].
      intros (c' & Hc' & Hne). rewrite Hc in Hc'. injection Hc' as <-. contradiction.
    + rewrite filter_cons_True.
      * csimpl. rewrite IH. f_equal. unfold unrealized. now rewrite Hc.
      * exists c. split; [assumption|]. intros H. apply Qeqb_eq in H. congruence.
  - rewrite filter_cons_False; [exact IH|].
    intros (c' & Hc' & _). rewrite Hc in Hc'. discriminate.
Qed.

(** What the metrics are: the count, the net exposure, and the profit
    summed over the positions whose current price is set and not zero. *)
Lemma calculate_portfolio_metrics_eq (s : ExecutionSimulator) :
  let positions := deref (heap s) <$> active_positions (strategy_manager s) in
  exists metrics : Metrics,
    calculate_portfolio_metrics s = (Ok metrics, s)
    /\ total_positions metrics = length (active_positions (strategy_manager s))
    /\ (net_exposure metrics
        == Qsum ((fun p => size p * inject_Z (direction p)) <$> positions))%Q
    /\ (total_profit_loss metrics
        == Qsum (unrealized <$> filter truthy_price positions))%Q
    /\ max_drawdown metrics = 0%Q
    /\ strategy_correlation metrics = [].
Proof.
  intros positions. eexists. split; [reflexivity|]. simpl. split; [|split; [|split]].
  - now rewrite length_map.
  - apply pysum_Qsum.
  - rewrite pysum_Qsum. fold positions. now rewrite omap_profit_loss_term.
  - split; reflexivity.
Qed.

(** C7 at a position whose current price is 0.  A long of size 1 bought
    at 100 by a tick, then ticked at price 0, has a known current price
    and an unrealized P&L of -100; the metrics of that tick count the
    position and its exposure but report a total P&L of 0, because the
    filter on the current price takes a zero price for an unset one. *)
Theorem total_profit_loss_zero_price :
  let s0 := fresh_simulator [("A", buy_when_flat)] in
  let s1 := snd (process_tick_data (tick_at "X" 100 0) s0) in
  let s2 := snd (process_tick_data (tick_at "X" 0 1) s1) in
  let positions := deref (heap s2) <$> active_positions (strategy_manager s2) in
  positions = [long_at_zero]
  /\ known_price_profit_loss positions = (-100)%Q
  /\ exists metrics : Metrics,
       fst (process_tick_data (tick_at "X" 0 1) s1) = Ok metrics
       /\ calculate_portfolio_metrics s2 = (Ok metrics, s2)
       /\ total_positions metrics = 1
       /\ net_exposure metrics = 1%Q
       /\ total_profit_loss metrics = 0%Q.
Proof.
  simpl. split; [reflexivity|]. split; [reflexivity|].
  eexists. split; [vm_compute; reflexivity|]. repeat split.
Qed.

(** ** C8: the order of the pipeline *)

Lemma exit_one_flags (acc flags : list (ref * string)) (item : string * list ref)
    (s s' : ExecutionSimulator) :
  exit_one acc item s = (Ok flags, s') ->
  forall x, x ∈ flags -> x ∈ acc \/ fst x ∈ snd item.
Proof.
  unfold exit_one, bind, gets, lift.
  destruct (map_result _ _) as [terms|e]; [|discriminate].
  assert (Hmap : forall x, x ∈ acc ++ map (fun r => (r, MFE_TRAILING_STOP)) (snd item) ->
                           x ∈ acc \/ fst x ∈ snd item).
  { intros x Hx. apply elem_of_app in Hx as [Hx|Hx]; [now left|right].
    apply list_elem_of_fmap in Hx as (r & -> & Hr). exact Hr. }
  destruct (Qltb 0 _).
  - unfold risk_setting, bind, gets.
    destruct (risk_settings (portfolio_evaluator s) !! _) as [th|]; [|discriminate].
    simpl. destruct (Qltb _ _); intros [= <- <-]; auto.
  - simpl. intros [= <- <-]. auto.
Qed.

Lemma exits_flags (groups : list (string * list ref)) (acc flags : list (ref * string))
    (s s' : ExecutionSimulator) :
  fold_each groups exit_one acc s = (Ok flags, s') ->
  forall x, x ∈ flags -> x ∈ acc \/ exists item, item ∈ groups /\ fst x ∈ snd item.
Proof.
  revert acc s. induction groups as [|item groups IH]; intros acc s; simpl.
  - intros [= <- <-]. auto.
  - unfold bind. destruct (exit_one acc item s) as [[acc'|e] s1] eqn:E; [|discriminate].
    intros Hfold x Hx. destruct (IH _ _ Hfold x Hx) as [Hacc|(item' & Hitem & Hin)].
    + destruct (exit_one_flags _ _ _ _ _ E x Hacc) as [H|H]; [now left|right].
      exists item. split; [apply list_elem_of_here|assumption].
    + right. exists item'. split; [now apply list_elem_of_further|assumption].
Qed.

(** Only active positions are flagged. *)
Lemma flagged_active (flags : list (ref * string)) (s s' : ExecutionSimulator) :
  evaluate_exit_conditions s = (Ok flags, s') ->
  forall r reason, (r, reason) ∈ flags -> r ∈ active_positions (strategy_manager s).
Proof.
  rewrite evaluate_exit_conditions_unfold.
  destruct (active_positions (strategy_manager s)) as [|r0 l] eqn:E.
  - intros [= <- <-] r reason Hr. now apply elem_of_nil in Hr.
  - rewrite <- E. rewrite group_by_symbol_groups_of. intros Hfold r reason Hr.
    destruct (exits_flags _ _ _ _ _ Hfold _ Hr) as [H|(item & Hitem & Hin)].
    + now apply elem_of_nil in H.
    + unfold groups_of in Hitem. apply list_elem_of_fmap in Hitem as (sym & -> & _).
      simpl in Hin. unfold group_of in Hin. now apply list_elem_of_filter in Hin as [_ Hin].
Qed.


Section Closing.
Context (flags : list (ref * string)).

#[global] Instance closing_refl : Reflexive (closing flags).
Proof.
  intros s. split; [reflexivity|]. split; [reflexivity|].
  exists []. split; [now rewrite app_nil_r|constructor].
Qed.

#[global] Instance closing_trans : Transitive (closing flags).
Proof.
  intros s1 s2 s3 (Hl12 & Ha12 & c12 & Hh12 & Hc12) (Hl23 & Ha23 & c23 & Hh23 & Hc23).
  split; [congruence|]. split; [now transitivity (active_positions (strategy_manager s2))|].
  exists (c12 ++ c23). split.
  - now rewrite Hh23, Hh12, app_assoc.
  - now apply Forall_app.
Qed.

Lemma closing_update_position (r : ref) (f : Position -> Position) :
  post (closing flags) (update_position r f).
Proof.
  intros s. split; [simpl; apply length_alter|]. split; [reflexivity|].
  exists []. split; [simpl; now rewrite app_nil_r|constructor].
Qed.

Lemma remove_first_subseteq (test : ref -> bool) (l l' : list ref) :
  remove_first test l = Some l' -> l' ⊆ l.
Proof.
  revert l'. induction l as [|x l IH]; intros l'; simpl; [discriminate|].
  destruct (test x).
  - intros [= <-]. intros y Hy. now apply list_elem_of_further.
  - destruct (remove_first test l) as [l0|]; [|discriminate].
    intros [= <-]. intros y Hy. apply elem_of_cons in Hy as [->|Hy].
    + apply list_elem_of_here.
    + apply list_elem_of_further. now apply (IH l0).
Qed.

Lemma closing_list_remove (r : ref) : post (closing flags) (list_remove r).
Proof.
  intros s. unfold list_remove, bind, gets.
  destruct (remove_first _ _) as [l'|] eqn:E; [|reflexivity].
  split; [reflexivity|]. split; [simpl; now apply remove_first_subseteq in E|].
  exists []. split; [simpl; now rewrite app_nil_r|constructor].
Qed.

Lemma closing_close_one (tick : Tick) (item : ref * string) :
  item ∈ flags -> post (closing flags) (close_one tick item).
Proof.
  intros Hitem. unfold close_one, _close_position.
  apply (post_bind (closing flags)); [apply (post_tick_item (closing flags))|intros px].
  apply (post_bind (closing flags)); [apply closing_update_position|intros _].
  apply (post_bind (closing flags)); [apply (post_tick_item (closing flags))|intros ts].
  apply (post_bind (closing flags)); [apply closing_update_position|intros _].
  apply (post_bind (closing flags)); [apply closing_update_position|intros _].
  apply (post_bind (closing flags)); [apply closing_list_remove|intros _].
  apply (post_bind (closing flags)); [apply (post_tick_item (closing flags))|intros ts'].
  intros s. split; [reflexivity|]. split; [reflexivity|].
  eexists. split; [reflexivity|]. constructor; [|constructor].
  split; [reflexivity|]. exists (snd item). split; [|reflexivity].
  simpl. now destruct item.
Qed.
End Closing.

Lemma closing_for_each (tick : Tick) (flags : list (ref * string)) :
  post (closing flags) (for_each flags (close_one tick)).
Proof.
  apply (post_for_each (closing flags)). intros item Hitem. now apply closing_close_one.
Qed.

#[global] Instance opening_refl : Reflexive opening.
Proof.
  intros s. split; [reflexivity|]. split; [exists []; now rewrite app_nil_r|].
  exists []. split; [now rewrite app_nil_r|constructor].
Qed.

#[global] Instance opening_trans : Transitive opening.
Proof.
  intros s1 s2 s3 (Hl12 & [a12 Ha12] & o12 & Hh12 & Ho12)
    (Hl23 & [a23 Ha23] & o23 & Hh23 & Ho23).
  split; [lia|]. split; [exists (a12 ++ a23); now rewrite Ha23, Ha12, app_assoc|].
  exists (o12 ++ o23). split; [now rewrite Hh23, Hh12, app_assoc|].
  apply Forall_app. split.
  - eapply Forall_impl; [exact Ho12|]. intros t (Hact & Hpos & Hin).
    split; [assumption|]. split; [assumption|].
    rewrite Ha23. apply elem_of_app. now left.
  - eapply Forall_impl; [exact Ho23|]. intros t (Hact & Hpos & Hin).
    split; [assumption|]. split; [lia|assumption].
Qed.






(** The pullback to 95 closes the position bought at 100 and the
    strategy, flat again, opens a new one on the same tick. *)
Example pullback_history :
  trade_history (snd (process_tick_data (tick_at "X" 95 2) book_before_pullback))
  = trade_history book_before_pullback
    ++ [mkTrade "CLOSE" 2 0 (Some MFE_TRAILING_STOP); mkTrade "OPEN" 2 1 None].
Proof. reflexivity. Qed.

(** Well-formedness holds in every reachable state. *)

#[global] Instance wf_step_refl : Reflexive wf_step.
Proof. intros s H. exact H. Qed.

#[global] Instance wf_step_trans : Transitive wf_step.
Proof. intros s1 s2 s3 H12 H23 H. auto. Qed.

Lemma wf_step_shrink (s s' : ExecutionSimulator) :
  length (heap s) <= length (heap s') ->
  active_positions (strategy_manager s') ⊆ active_positions (strategy_manager s) ->
  wf_step s s'.
Proof.
  intros Hlen Hact Hwf. unfold wf in *. rewrite Forall_forall in *.
  intros r Hr. apply Hact, Hwf in Hr. lia.
Qed.

Lemma wf_step_eq {A} (m : M A) : post eq m -> post wf_step m.
Proof. apply post_weaken. intros s s' <-. reflexivity. Qed.

Lemma wf_step_update_position (r : ref) (f : Position -> Position) :
  post wf_step (update_position r f).
Proof.
  intros s. apply wf_step_shrink; simpl; [now rewrite length_alter|reflexivity].
Qed.

Lemma wf_step_update_positions (tick : Tick) : post wf_step (update_positions tick).
Proof.
  intros s. rewrite update_positions_unfold.
  apply (post_for_each wf_step). intros r _. unfold update_one.
  apply (post_bind wf_step); [apply (post_gets wf_step)|intros p].
  destruct (bool_decide _); [|apply (post_ret wf_step)].
  apply (post_bind wf_step); [apply (post_tick_item wf_step)|intros c].
  apply (post_bind wf_step); [apply wf_step_update_position|intros _].
  apply (post_bind wf_step).
  - destruct (Qltb _ _); [apply wf_step_update_position|apply (post_ret wf_step)].
  - intros _. destruct (Qltb _ _); [apply wf_step_update_position|apply (post_ret wf_step)].
Qed.

Lemma wf_step_closing (flags : list (ref * string)) (s s' : ExecutionSimulator) :
  closing flags s s' -> wf_step s s'.
Proof. intros (Hlen & Hact & _). apply wf_step_shrink; [lia|assumption]. Qed.

Lemma wf_step__open_position (sid : string) (tick : Tick) (sz : Q) (dir : Z) :
  post wf_step (_open_position sid tick sz dir).
Proof.
  intros s. destruct (_open_position_state sid tick sz dir s)
    as [->|(sym & px & ts & -> & ->)]; [reflexivity|].
  intros Hwf. unfold wf in *. simpl. rewrite length_app. simpl.
  apply Forall_app. split.
  - eapply Forall_impl; [exact Hwf|]. simpl. intros r Hr. lia.
  - constructor; [lia|constructor].
Qed.

Lemma wf_step_process_tick_data (tick : Tick) : post wf_step (process_tick_data tick).
Proof.
  rewrite process_tick_data_unfold.
  apply (post_bind wf_step); [apply wf_step_eq, post_eq_validate|intros _].
  apply (post_bind wf_step); [apply wf_step_update_positions|intros _].
  apply (post_bind wf_step);
    [apply wf_step_eq, post_eq_evaluate_exit_conditions|intros exits].
  apply (post_bind wf_step).
  { intros s. eapply wf_step_closing. apply closing_for_each. }
  intros _.
  apply (post_bind wf_step); [apply wf_step_eq, post_eq_process_tick|intros signals].
  apply (post_bind wf_step).
  { apply (post_for_each wf_step). intros item _. unfold open_one.
    destruct (String.eqb _ "BUY"); [apply wf_step__open_position|].
    destruct (String.eqb _ "SELL"); [apply wf_step__open_position|].
    apply (post_ret wf_step). }
  intros _. apply wf_step_eq, post_eq_calculate_portfolio_metrics.
Qed.

Lemma reachable_wf (s : ExecutionSimulator) : reachable s -> wf s.
Proof.
  induction 1 as [settings pe _|s sid f _ IH|s tick _ IH].
  - constructor.
  - exact IH.
  - now apply wf_step_process_tick_data.
Qed.

(** * Further properties *)

(** ** update_positions: ticks without a price, repeated ticks *)

Lemma update_one_no_match (tick : Tick) (r : ref) (s : ExecutionSimulator) :
  Some (symbol_of (heap s) r) <> tick_symbol tick ->
  update_one tick r s = (Ok tt, s).
Proof.
  intros Hne. unfold update_one, bind, get_position, gets.
  fold (symbol_of (heap s) r). now rewrite bool_decide_eq_false_2.
Qed.

Lemma update_one_no_price (tick : Tick) (r : ref) (s : ExecutionSimulator) :
  tick_price tick = None ->
  Some (symbol_of (heap s) r) = tick_symbol tick ->
  update_one tick r s = (Raise (KeyError "price"), s).
Proof.
  intros Hpx Heq. unfold update_one, bind, get_position, gets.
  fold (symbol_of (heap s) r). rewrite bool_decide_eq_true_2 by assumption.
  now rewrite Hpx.
Qed.

Lemma update_positions_unmatched (tick : Tick) (s : ExecutionSimulator) :
  Forall (fun r => Some (symbol_of (heap s) r) <> tick_symbol tick)
    (active_positions (strategy_manager s)) ->
  update_positions tick s = (Ok tt, s).
Proof.
  rewrite update_positions_unfold.
  induction 1 as [|r l Hr _ IH]; simpl; [reflexivity|].
  unfold bind. now rewrite update_one_no_match.
Qed.

Lemma update_positions_unpriced (tick : Tick) (s : ExecutionSimulator) :
  tick_price tick = None ->
  Exists (fun r => Some (symbol_of (heap s) r) = tick_symbol tick)
    (active_positions (strategy_manager s)) ->
  update_positions tick s = (Raise (KeyError "price"), s).
Proof.
  rewrite update_positions_unfold.
  intros Hpx. induction 1 as [r l Hr|r l _ IH]; simpl; unfold bind.
  - now rewrite update_one_no_price.
  - destruct (decide (Some (symbol_of (heap s) r) = tick_symbol tick)) as [Heq|Hne].
    + now rewrite update_one_no_price.
    + now rewrite update_one_no_match.
Qed.

(** X1.  [update_positions] with no active position on the instrument
    of the tick (in particular for a tick without [symbol]) returns
    normally and changes nothing, whatever else the tick lacks.  For a
    tick without [price], as soon as one active position is on its
    instrument the call raises KeyError('price'), and nothing has been
    changed. *)
Theorem update_positions_edge (tick : Tick) (s : ExecutionSimulator) :
  (Forall (fun r => Some (symbol_of (heap s) r) <> tick_symbol tick)
     (active_positions (strategy_manager s)) ->
   update_positions tick s = (Ok tt, s))
  /\ (tick_price tick = None ->
      Exists (fun r => Some (symbol_of (heap s) r) = tick_symbol tick)
        (active_positions (strategy_manager s)) ->
      update_positions tick s = (Raise (KeyError "price"), s)).
Proof.
  split; [apply update_positions_unmatched|apply update_positions_unpriced].
Qed.

Lemma update_positions_edge_witness :
  update_positions (mkTick (Some "X") None (Some 1%Z)) (book_of [long_at_100] [0])
  = (Raise (KeyError "price"), book_of [long_at_100] [0]).
Proof.
  apply (proj2 (update_positions_edge (mkTick (Some "X") None (Some 1%Z))
                  (book_of [long_at_100] [0]))).
  - reflexivity.
  - constructor. reflexivity.
Defined.

(** The heap after [update_positions] for a tick with a price. *)
Lemma update_positions_priced (tick : Tick) (px : Q) (s : ExecutionSimulator) :
  tick_price tick = Some px ->
  exists h' : list Position,
    update_positions tick s = (Ok tt, set_heap h' s)
    /\ length h' = length (heap s)
    /\ forall r : ref,
         h' !! r = (if bool_decide (r ∈ active_positions (strategy_manager s))
                    then tick_update_if tick px <$> heap s !! r
                    else heap s !! r).
Proof.
  intros Hpx. rewrite update_positions_unfold, (for_each_update tick px) by assumption.
  eexists. split; [reflexivity|]. split.
  - generalize (heap s).
    induction (active_positions (strategy_manager s)) as [|x l IH]; intros h; simpl.
    + reflexivity.
    + now rewrite IH, length_alter.
  - intros r. apply foldl_alter_lookup, tick_update_if_idem.
Qed.

Lemma update_positions_state (tick : Tick) (s : ExecutionSimulator) :
  snd (update_positions tick s) = s
  \/ exists px h',
       tick_price tick = Some px
       /\ update_positions tick s = (Ok tt, set_heap h' s)
       /\ forall r : ref,
            h' !! r = (if bool_decide (r ∈ active_positions (strategy_manager s))
                       then tick_update_if tick px <$> heap s !! r
                       else heap s !! r).
Proof.
  destruct (tick_price tick) as [px|] eqn:Hpx.
  - right. destruct (update_positions_priced tick px s Hpx) as (h' & H1 & _ & H2).
    exists px, h'. auto.
  - left. destruct (Forall_Exists_dec
      (fun r => Some (symbol_of (heap s) r) <> tick_symbol tick)
      (fun r => Some (symbol_of (heap s) r) = tick_symbol tick)
      (fun r => match decide (Some (symbol_of (heap s) r) = tick_symbol tick) with
                | left H => right H | right H => left H end)
      (active_positions (strategy_manager s))) as [Hall|Hex].
    + now rewrite (update_positions_unmatched tick s Hall).
    + now rewrite (update_positions_unpriced tick s Hpx Hex).
Qed.

(** X2.  Processing the same tick twice in a row updates the positions
    as processing it once: [update_positions] is idempotent, so a tick
    that is delivered again (a retry, a duplicate) changes neither a
    price nor an excursion, and gives the same result. *)
Theorem update_positions_idempotent (tick : Tick) (s : ExecutionSimulator) :
  update_positions tick (snd (update_positions tick s)) = update_positions tick s.
Proof.
  destruct (update_positions_state tick s) as [Hs|(px & h' & Hpx & Hupd & Hh')].
  - now rewrite Hs.
  - rewrite Hupd. simpl.
    destruct (update_positions_priced tick px (set_heap h' s) Hpx) as (h'' & Hupd' & _ & Hh'').
    rewrite Hupd'. simpl in *. f_equal. unfold set_heap. simpl. f_equal.
    apply list_eq. intros r. rewrite Hh'', Hh'.
    case_bool_decide; [|reflexivity].
    destruct (heap s !! r) as [p|]; simpl; [|reflexivity].
    now rewrite tick_update_if_idem.
Qed.

(** ** Invariants of the position objects *)

Section Evolves.
Context (Rel : Position -> Position -> Prop).
Context `{!Reflexive Rel, !Transitive Rel}.
Context (Rel_tick : forall tick px p, Rel p (tick_update_if tick px p)).
Context (Rel_exit_price : forall px p, Rel p (with_exit_price px p)).
Context (Rel_exit_time : forall ts p, Rel p (with_exit_time ts p)).
Context (Rel_exit_reason : forall reason p, Rel p (with_exit_reason reason p)).

#[global] Instance evolves_refl : Reflexive (evolves Rel).
Proof. intros s r p Hr. exists p. split; [assumption|reflexivity]. Qed.

#[global] Instance evolves_trans : Transitive (evolves Rel).
Proof.
  intros s1 s2 s3 H12 H23 r p Hr.
  destruct (H12 r p Hr) as (p2 & Hr2 & Hq2).
  destruct (H23 r p2 Hr2) as (p3 & Hr3 & Hq3).
  exists p3. split; [assumption|]. now transitivity p2.
Qed.

Lemma evolves_same_heap (s s' : ExecutionSimulator) : heap s' = heap s -> evolves Rel s s'.
Proof. intros Hh r p Hr. exists p. rewrite Hh. split; [assumption|reflexivity]. Qed.

Lemma evolves_alter (f : Position -> Position) (r : ref) (s : ExecutionSimulator) :
  (forall p, Rel p (f p)) -> evolves Rel s (set_heap (alter f r (heap s)) s).
Proof.
  intros Hf j p Hj. simpl. rewrite list_lookup_alter. case_decide.
  - subst j. rewrite Hj. simpl. eauto.
  - exists p. split; [assumption|reflexivity].
Qed.

Lemma evolves_update_positions (tick : Tick) : post (evolves Rel) (update_positions tick).
Proof.
  intros s. rewrite update_positions_unfold.
  apply (post_for_each (evolves Rel)). intros r _ s0.
  destruct (tick_price tick) as [px|] eqn:Hpx.
  - rewrite (update_one_spec tick px) by assumption. simpl.
    apply evolves_alter. auto.
  - apply evolves_same_heap. unfold update_one, bind, get_position, gets.
    destruct (bool_decide _); [|reflexivity]. now rewrite Hpx.
Qed.

Lemma evolves_close_one (tick : Tick) (item : ref * string) :
  post (evolves Rel) (close_one tick item).
Proof.
  unfold close_one, _close_position.
  apply (post_bind (evolves Rel)); [apply (post_tick_item (evolves Rel))|intros px].
  apply (post_bind (evolves Rel)); [intros s; apply evolves_alter; auto|intros _].
  apply (post_bind (evolves Rel)); [apply (post_tick_item (evolves Rel))|intros ts].
  apply (post_bind (evolves Rel)); [intros s; apply evolves_alter; auto|intros _].
  apply (post_bind (evolves Rel)); [intros s; apply evolves_alter; auto|intros _].
  apply (post_bind (evolves Rel)).
  { intros s. apply evolves_same_heap. unfold list_remove, bind, gets.
    now destruct (remove_first _ _). }
  intros _.
  apply (post_bind (evolves Rel)); [apply (post_tick_item (evolves Rel))|intros ts'].
  intros s. now apply evolves_same_heap.
Qed.

Lemma evolves_open_one (tick : Tick) (item : string * Signal) :
  post (evolves Rel) (open_one tick item).
Proof.
  assert (Hopen : forall sid sz dir, post (evolves Rel) (_open_position sid tick sz dir)).
  { intros sid sz dir s. destruct (_open_position_state sid tick sz dir s)
      as [->|(sym & px & ts & -> & ->)]; [reflexivity|].
    intros r p Hr. exists p. simpl. split; [|reflexivity].
    now apply lookup_app_l_Some. }
  unfold open_one. destruct (String.eqb _ "BUY"); [apply Hopen|].
  destruct (String.eqb _ "SELL"); [apply Hopen|]. apply (post_ret (evolves Rel)).
Qed.

Lemma evolves_process_tick_data (tick : Tick) : post (evolves Rel) (process_tick_data tick).
Proof.
  assert (Heq : forall A (m : M A), post eq m -> post (evolves Rel) m).
  { intros A m. apply post_weaken. intros s s' <-. reflexivity. }
  rewrite process_tick_data_unfold.
  apply (post_bind (evolves Rel)); [apply Heq, post_eq_validate|intros _].
  apply (post_bind (evolves Rel)); [apply evolves_update_positions|intros _].
  apply (post_bind (evolves Rel)); [apply Heq, post_eq_evaluate_exit_conditions|intros exits].
  apply (post_bind (evolves Rel)).
  { apply (post_for_each (evolves Rel)). intros item _. apply evolves_close_one. }
  intros _.
  apply (post_bind (evolves Rel)); [apply Heq, post_eq_process_tick|intros signals].
  apply (post_bind (evolves Rel)).
  { apply (post_for_each (evolves Rel)). intros item _. apply evolves_open_one. }
  intros _. apply Heq, post_eq_calculate_portfolio_metrics.
Qed.

Lemma evolves_run_ticks (ticks : list Tick) (s : ExecutionSimulator) :
  evolves Rel s (run_ticks ticks s).
Proof.
  revert s. induction ticks as [|tick ticks IH]; intros s; simpl.
  - reflexivity.
  - transitivity (snd (process_tick_data tick s)); [|apply IH].
    apply evolves_process_tick_data.
Qed.
End Evolves.

#[global] Instance same_entry_refl : Reflexive same_entry.
Proof. intros p. reflexivity. Qed.

#[global] Instance same_entry_trans : Transitive same_entry.
Proof. intros p q r Hpq Hqr. unfold same_entry in *. congruence. Qed.

(** X4.  Whatever ticks are processed and whatever the calls return, a
    position object stays in the heap with the instrument, entry price,
    entry time, direction, size and strategy it was opened with. *)
Theorem entry_fields_never_change
    (s : ExecutionSimulator) (ticks : list Tick) (r : ref) (p : Position) :
  heap s !! r = Some p ->
  exists p' : Position,
    heap (run_ticks ticks s) !! r = Some p'
    /\ symbol p' = symbol p
    /\ entry_price p' = entry_price p
    /\ entry_time p' = entry_time p
    /\ direction p' = direction p
    /\ size p' = size p
    /\ strategy_id p' = strategy_id p.
Proof.
  intros Hr.
  destruct (evolves_run_ticks same_entry) with
    (ticks := ticks) (s := s) (r := r) (p := p) as (p' & Hr' & Hq); try assumption.
  - intros tick px x. unfold tick_update_if. now case_bool_decide.
  - reflexivity.
  - reflexivity.
  - reflexivity.
  - exists p'. split; [assumption|]. unfold same_entry, entry_fields in Hq.
    now injection Hq as -> -> -> -> -> ->.
Qed.

Lemma entry_fields_never_change_witness :
  exists p' : Position,
    heap (run_ticks [tick_at "X" 110 1; tick_at "X" 95 2] (book_of [long_at_100] [0])) !! 0
    = Some p'
    /\ symbol p' = "X"
    /\ entry_price p' = 100%Q
    /\ entry_time p' = 0%Z
    /\ direction p' = 1%Z
    /\ size p' = 1%Q
    /\ strategy_id p' = "A".
Proof.
  apply (entry_fields_never_change (book_of [long_at_100] [0])
           [tick_at "X" 110 1; tick_at "X" 95 2] 0 long_at_100).
  reflexivity.
Defined.

(** ** Closing *)

Lemma bind_at {A B} (R : ExecutionSimulator -> ExecutionSimulator -> Prop)
    `{!Transitive R} (m : M A) (f : A -> M B) (s : ExecutionSimulator) :
  R s (snd (m s)) ->
  (forall a, fst (m s) = Ok a -> R (snd (m s)) (snd (f a (snd (m s))))) ->
  R s (snd (bind m f s)).
Proof.
  intros Hm Hf. unfold bind. destruct (m s) as [[a|e] s1]; simpl in *; [|exact Hm].
  transitivity s1; [exact Hm|now apply Hf].
Qed.

Lemma for_each_app {A} (l1 l2 : list A) (body : A -> M unit) (s : ExecutionSimulator) :
  for_each (l1 ++ l2) body s = (run! for_each l1 body in for_each l2 body) s.
Proof.
  revert s. induction l1 as [|x l1 IH]; intros s; simpl.
  - reflexivity.
  - unfold bind. destruct (body x s) as [[[]|e] s1]; [|reflexivity].
    rewrite IH. reflexivity.
Qed.

Lemma Position_eqb_symbol (p q : Position) :
  Position_eqb p q = true -> symbol p = symbol q.
Proof.
  unfold Position_eqb. rewrite !andb_true_iff.
  intros [[[[[[[[H _] _] _] _] _] _] _] _]. now apply String.eqb_eq.
Qed.

Lemma symbol_of_alter (f : Position -> Position) (r x : ref) (h : list Position) :
  (forall p, symbol (f p) = symbol p) ->
  symbol_of (alter f r h) x = symbol_of h x.
Proof.
  intros Hf. unfold symbol_of, deref. rewrite list_lookup_alter.
  case_decide; [subst|reflexivity]. destruct (h !! x); simpl; auto.
Qed.

Lemma symbol_closed_with (px : Q) (ts : Z) (reason : string) (p : Position) :
  symbol (closed_with px ts reason p) = symbol p.
Proof. reflexivity. Qed.

Lemma remove_first_split (test : ref -> bool) (l1 l2 : list ref) (r : ref) :
  Forall (fun x => test x = false) l1 -> test r = true ->
  remove_first test (l1 ++ r :: l2) = Some (l1 ++ l2).
Proof.
  intros Hl1 Hr. induction Hl1 as [|x l1 Hx _ IH]; simpl.
  - now rewrite Hr.
  - now rewrite Hx, IH.
Qed.

Lemma remove_first_None (test : ref -> bool) (l : list ref) :
  Forall (fun x => test x = false) l -> remove_first test l = None.
Proof.
  induction 1 as [|x l Hx _ IH]; simpl; [reflexivity|]. now rewrite Hx, IH.
Qed.

(** What [_close_position] does, for a tick with its fields: the three
    attributes are set, then the first active position that is the
    object or equals it is removed and the close is logged; when there
    is none, the call raises after the attributes have been set. *)
Lemma _close_position_eq (sym : string) (px : Q) (ts : Z) (r : ref) (reason : string)
    (s : ExecutionSimulator) :
  let h' := alter (closed_with px ts reason) r (heap s) in
  _close_position r (mkTick (Some sym) (Some px) (Some ts)) reason s
  = match remove_first (same_or_equal h' r) (active_positions (strategy_manager s)) with
    | Some active' =>
        (Ok tt,
         mkExecutionSimulator h'
           (mkStrategyManager (strategies (strategy_manager s)) active')
           (portfolio_evaluator s)
           (trade_history s ++ [mkTrade "CLOSE" ts r (Some reason)]))
    | None => (Raise (ValueError "list.remove(x): x not in list"), set_heap h' s)
    end.
Proof.
  intros h'. unfold _close_position, bind, tick_item, ret, update_position, modify,
    list_remove, bind, gets, raise. simpl.
  assert (Hh : alter (with_exit_reason reason) r
                 (alter (with_exit_time ts) r (alter (with_exit_price px) r (heap s))) = h').
  { now rewrite !list_alter_alter_eq. }
  rewrite Hh. fold (same_or_equal h' r).
  change (fun x : nat => Nat.eqb x r || Position_eqb (deref h' x) (deref h' r))
    with (same_or_equal h' r).
  destruct (remove_first (same_or_equal h' r) _); reflexivity.
Qed.

Lemma filter_ext_in {A} (P1 P2 : A -> Prop)
    `{!forall x, Decision (P1 x), !forall x, Decision (P2 x)} (l : list A) :
  (forall x, x ∈ l -> (P1 x <-> P2 x)) -> filter P1 l = filter P2 l.
Proof.
  induction l as [|a l IH]; intros Hext; [reflexivity|].
  assert (Ha : P1 a <-> P2 a) by apply Hext, list_elem_of_here.
  assert (Hl : filter P1 l = filter P2 l)
    by (apply IH; intros x Hx; now apply Hext, list_elem_of_further).
  destruct (decide (P1 a)) as [H1|H1].
  - rewrite !filter_cons_True by tauto. now rewrite Hl.
  - rewrite !filter_cons_False by tauto. exact Hl.
Qed.

(** A filtered list that starts with [r]: [r] is the first element of
    the list that passes the filter. *)
Lemma filter_cons_split {A} (P : A -> Prop) `{!forall x, Decision (P x)}
    (l : list A) (r : A) (g : list A) :
  filter P l = r :: g ->
  exists l1 l2, l = l1 ++ r :: l2 /\ Forall (fun x => ~ P x) l1 /\ P r /\ filter P l2 = g.
Proof.
  induction l as [|a l IH]; [discriminate|].
  destruct (decide (P a)) as [Ha|Ha].
  - rewrite filter_cons_True by assumption. intros [= -> <-].
    exists [], l. repeat split; [constructor|assumption].
  - rewrite filter_cons_False by assumption. intros Hf.
    destruct (IH Hf) as (l1 & l2 & -> & Hl1 & Hr & Hg).
    exists (a :: l1), l2. repeat split; [now constructor|assumption|assumption].
Qed.

Lemma filter_nil_complement {A} (P : A -> Prop) `{!forall x, Decision (P x)} (l : list A) :
  filter P l = [] -> filter (fun x => ~ P x) l = l.
Proof.
  induction l as [|a l IH]; [reflexivity|].
  destruct (decide (P a)) as [Ha|Ha].
  - rewrite filter_cons_True by assumption. discriminate.
  - rewrite filter_cons_False by assumption. intros Hf.
    rewrite filter_cons_True by assumption. now rewrite IH.
Qed.

Lemma filter_all {A} (P : A -> Prop) `{!forall x, Decision (P x)} (l : list A) :
  Forall P l -> filter P l = l.
Proof.
  induction 1 as [|a l Ha _ IH]; [reflexivity|].
  rewrite filter_cons_True by assumption. now rewrite IH.
Qed.

Lemma bind_filter {A B} (P : A -> Prop) `{!forall x, Decision (P x)}
    (f : A -> list B) (l : list A) :
  l ≫= (fun k => if decide (P k) then f k else []) = filter P l ≫= f.
Proof.
  induction l as [|a l IH]; [reflexivity|].
  rewrite bind_cons, IH. destruct (decide (P a)).
  - now rewrite filter_cons_True, bind_cons by assumption.
  - now rewrite filter_cons_False by assumption.
Qed.

Section Closes.
Context (sym : string) (px : Q) (ts : Z) (reason : string).
Context (sy : ref -> string).
Let tick := mkTick (Some sym) (Some px) (Some ts).

(** Closing the first active position on its instrument removes that
    very object. *)
Lemma close_one_first (r : ref) (l1 l2 : list ref) (s : ExecutionSimulator) :
  (forall x, symbol_of (heap s) x = sy x) ->
  active_positions (strategy_manager s) = l1 ++ r :: l2 ->
  Forall (fun x => ~ sy x = sy r) l1 ->
  close_one tick (r, reason) s
  = (Ok tt,
     mkExecutionSimulator (alter (closed_with px ts reason) r (heap s))
       (mkStrategyManager (strategies (strategy_manager s)) (l1 ++ l2))
       (portfolio_evaluator s)
       (trade_history s ++ [mkTrade "CLOSE" ts r (Some reason)])).
Proof.
  intros Hsy Hact Hl1. unfold close_one, tick. simpl.
  rewrite _close_position_eq. simpl. rewrite Hact.
  rewrite remove_first_split; [reflexivity| |].
  - eapply Forall_impl; [exact Hl1|]. intros x Hx. unfold same_or_equal.
    apply orb_false_intro.
    + apply Nat.eqb_neq. intros ->. now apply Hx.
    + apply not_true_is_false. intros Heq. apply Position_eqb_symbol in Heq.
      apply Hx. rewrite <- !Hsy.
      rewrite <- (symbol_of_alter (closed_with px ts reason) r x (heap s))
        by apply symbol_closed_with.
      rewrite <- (symbol_of_alter (closed_with px ts reason) r r (heap s))
        by apply symbol_closed_with.
      exact Heq.
  - unfold same_or_equal. now rewrite Nat.eqb_refl.
Qed.

(** Closing, in order, all the active positions on an instrument
    removes exactly them. *)
Lemma close_group (k : string) (g : list ref) (s : ExecutionSimulator) :
  (forall x, symbol_of (heap s) x = sy x) ->
  filter (fun x => sy x = k) (active_positions (strategy_manager s)) = g ->
  for_each ((fun r => (r, reason)) <$> g) (close_one tick) s
  = (Ok tt,
     mkExecutionSimulator (close_all px ts reason g (heap s))
       (mkStrategyManager (strategies (strategy_manager s))
          (filter (fun x => ~ sy x = k) (active_positions (strategy_manager s))))
       (portfolio_evaluator s)
       (trade_history s ++ (close_entry ts <$> ((fun r => (r, reason)) <$> g)))).
Proof.
  revert s. induction g as [|r g IH]; intros s Hsy Hg.
  - simpl. unfold ret. rewrite filter_nil_complement by assumption.
    rewrite app_nil_r. now destruct s as [h [d a] pe t].
  - destruct (filter_cons_split _ _ _ _ Hg) as (l1 & l2 & Hact & Hl1 & Hr & Hg').
    csimpl. unfold bind.
    rewrite (close_one_first r l1 l2 s Hsy Hact)
      by (eapply Forall_impl; [exact Hl1|]; intros x Hx; now rewrite Hr).
    assert (Hl1' : filter (fun x => sy x = k) l1 = []).
    { clear -Hl1. induction Hl1 as [|x l1 Hx _ IH]; [reflexivity|].
      now rewrite filter_cons_False. }
    rewrite IH; simpl.
    + f_equal. unfold close_entry at 2. simpl. rewrite <- app_assoc. simpl.
      rewrite Hact, !filter_app, (filter_cons_False _ r) by tauto. reflexivity.
    + intros x. rewrite symbol_of_alter by apply symbol_closed_with. apply Hsy.
    + now rewrite filter_app, Hl1', Hg'.
Qed.

(** Closing group after group, for distinct instruments. *)
Lemma close_groups (keys : list string) (s : ExecutionSimulator) :
  NoDup keys ->
  (forall x, symbol_of (heap s) x = sy x) ->
  let refs := keys ≫= fun k => filter (fun x => sy x = k)
                                  (active_positions (strategy_manager s)) in
  for_each ((fun r => (r, reason)) <$> refs) (close_one tick) s
  = (Ok tt,
     mkExecutionSimulator (close_all px ts reason refs (heap s))
       (mkStrategyManager (strategies (strategy_manager s))
          (filter (fun x => sy x ∉ keys) (active_positions (strategy_manager s))))
       (portfolio_evaluator s)
       (trade_history s ++ (close_entry ts <$> ((fun r => (r, reason)) <$> refs)))).
Proof.
  intros Hnd. revert s. induction Hnd as [|k keys Hk Hnd IH]; intros s Hsy refs.
  - subst refs. simpl. unfold ret. rewrite app_nil_r.
    rewrite filter_all by (apply Forall_forall; intros x _; apply not_elem_of_nil).
    now destruct s as [h [d a] pe t].
  - subst refs. rewrite bind_cons, fmap_app, for_each_app. unfold bind.
    rewrite (close_group k _ s Hsy eq_refl).
    set (s1 := mkExecutionSimulator _ _ _ _).
    assert (Hsy1 : forall x, symbol_of (heap s1) x = sy x).
    { intros x. unfold s1, close_all. simpl.
      generalize (heap s) (Hsy x).
      induction (filter _ _) as [|y g IHg]; intros h Hh; simpl; [exact Hh|].
      apply IHg. now rewrite symbol_of_alter by apply symbol_closed_with. }
    assert (Hrest : keys ≫= (fun k0 => filter (fun x => sy x = k0)
                                          (active_positions (strategy_manager s)))
                    = keys ≫= (fun k0 => filter (fun x => sy x = k0)
                                            (active_positions (strategy_manager s1)))).
    { apply Forall_bind_ext, Forall_forall. intros k0 Hk0. unfold s1. simpl.
      rewrite list_filter_filter. apply list_filter_iff. intros x.
      split; [|tauto]. intros Hx. split; [assumption|]. intros Hxk. apply Hk.
      now rewrite <- Hxk, Hx. }
    rewrite Hrest. specialize (IH s1 Hsy1). cbv zeta in IH. rewrite IH.
    rewrite <- Hrest. unfold s1. simpl. f_equal. unfold close_all. rewrite foldl_app.
    rewrite !fmap_app, <- app_assoc. rewrite list_filter_filter.
    f_equal. f_equal. f_equal. apply list_filter_iff. intros x.
    rewrite elem_of_cons. split.
    + intros [H1 H2] [H|H]; auto.
    + intros H. split; intros H'; apply H; auto.
Qed.
End Closes.

Lemma fmap_bind_list {A B C} (f : B -> C) (g : A -> list B) (l : list A) :
  f <$> (l ≫= g) = l ≫= (fun k => f <$> g k).
Proof.
  induction l as [|a l IH]; [reflexivity|].
  now rewrite !bind_cons, fmap_app, IH.
Qed.

Lemma closed_with_idem (px : Q) (ts : Z) (reason : string) (p : Position) :
  closed_with px ts reason (closed_with px ts reason p) = closed_with px ts reason p.
Proof. reflexivity. Qed.

(** The exit signals are whole groups: the positions of the instruments
    that are stopped, instrument after instrument. *)
Lemma flags_groups (th : Q) (flags : list (ref * string)) (s : ExecutionSimulator) :
  risk_settings (portfolio_evaluator s) !! "mfe_exit_threshold" = Some th ->
  evaluate_exit_conditions s = (Ok flags, s) ->
  exists keys : list string,
    NoDup keys
    /\ flags = (fun r => (r, MFE_TRAILING_STOP)) <$>
               (keys ≫= fun k => filter (fun x => symbol_of (heap s) x = k)
                                   (active_positions (strategy_manager s))).
Proof.
  intros Hth Heval.
  destruct (evaluate_exit_conditions_eq th s Hth) as [Hok Hbad].
  destruct (unpriced_or_priced (heap s) (active_positions (strategy_manager s)))
    as [Hp|Hu]; [|rewrite (Hbad Hu) in Heval; discriminate].
  rewrite (Hok Hp) in Heval. injection Heval as <-.
  exists (filter (fun k => trailing_stop (heap s) th
                             (group_of (heap s) (active_positions (strategy_manager s)) k))
            (first_seen (symbol_of (heap s) <$> active_positions (strategy_manager s)))).
  split; [apply NoDup_filter, first_seen_NoDup|].
  unfold flagged. rewrite bind_filter, fmap_bind_list. reflexivity.
Qed.

(** Closing the exit signals of an evaluation, in order. *)
Lemma close_flags (sym : string) (px : Q) (ts : Z) (th : Q)
    (flags : list (ref * string)) (s : ExecutionSimulator) :
  risk_settings (portfolio_evaluator s) !! "mfe_exit_threshold" = Some th ->
  evaluate_exit_conditions s = (Ok flags, s) ->
  exists s' : ExecutionSimulator,
    for_each flags (close_one (mkTick (Some sym) (Some px) (Some ts))) s = (Ok tt, s')
    /\ active_positions (strategy_manager s')
       = filter (fun r => r ∉ flags.*1) (active_positions (strategy_manager s))
    /\ trade_history s' = trade_history s ++ (close_entry ts <$> flags)
    /\ (forall r : ref,
          heap s' !! r
          = if bool_decide (r ∈ flags.*1)
            then closed_with px ts MFE_TRAILING_STOP <$> heap s !! r
            else heap s !! r)
    /\ strategies (strategy_manager s') = strategies (strategy_manager s)
    /\ portfolio_evaluator s' = portfolio_evaluator s
    /\ length (heap s') = length (heap s).
Proof.
  intros Hth Heval. destruct (flags_groups th flags s Hth Heval) as (keys & Hnd & ->).
  pose proof (close_groups sym px ts MFE_TRAILING_STOP (symbol_of (heap s)) keys s Hnd
                (fun x => eq_refl)) as Hclose.
  cbv zeta in Hclose. rewrite Hclose. eexists. split; [reflexivity|]. simpl.
  set (refs := keys ≫= _).
  assert (Hfst : ((fun r : ref => (r, MFE_TRAILING_STOP)) <$> refs).*1 = refs).
  { rewrite <- list_fmap_compose. apply list_fmap_id. }
  rewrite Hfst. split; [|split; [reflexivity|split; [|split; [reflexivity|split; [reflexivity|]]]]].
  - apply filter_ext_in. intros x Hx. unfold refs. rewrite list_elem_of_bind.
    split.
    + intros Hk (k & Hxk & Hkk). apply list_elem_of_filter in Hxk as [<- _]. auto.
    + intros Hno Hk. apply Hno. exists (symbol_of (heap s) x).
      split; [|assumption]. now apply list_elem_of_filter.
  - intros r. unfold close_all. apply foldl_alter_lookup. intros p. reflexivity.
  - unfold close_all. generalize (heap s). generalize refs. clear.
    intros l. induction l as [|x l IH]; intros h; simpl; [reflexivity|].
    now rewrite IH, length_alter.
Qed.

(** X5.  The closes that follow an exit evaluation cannot fail on a
    tick that has its fields, and they remove exactly the flagged
    positions: each flagged object gets its exit price, time and
    reason, the active positions are the former ones without the
    flagged ones, in the same order, and the history grows by one CLOSE
    entry per flagged position, in flagging order.  Removal by equality
    never takes an unflagged position in the place of a flagged one. *)
Theorem flagged_positions_closed_exactly (sym : string) (px : Q) (ts : Z) (th : Q)
    (flags : list (ref * string)) (s : ExecutionSimulator) :
  risk_settings (portfolio_evaluator s) !! "mfe_exit_threshold" = Some th ->
  evaluate_exit_conditions s = (Ok flags, s) ->
  exists s' : ExecutionSimulator,
    for_each flags
      (fun item => _close_position (fst item) (mkTick (Some sym) (Some px) (Some ts))
                     (snd item)) s
    = (Ok tt, s')
    /\ active_positions (strategy_manager s')
       = filter (fun r => r ∉ flags.*1) (active_positions (strategy_manager s))
    /\ trade_history s'
       = trade_history s
         ++ ((fun item => mkTrade "CLOSE" ts (fst item) (Some (snd item))) <$> flags)
    /\ (forall r : ref,
          heap s' !! r
          = if bool_decide (r ∈ flags.*1)
            then closed_with px ts MFE_TRAILING_STOP <$> heap s !! r
            else heap s !! r)
    /\ strategies (strategy_manager s') = strategies (strategy_manager s)
    /\ portfolio_evaluator s' = portfolio_evaluator s.
Proof.
  intros Hth Heval.
  destruct (close_flags sym px ts th flags s Hth Heval)
    as (s' & H1 & H2 & H3 & H4 & H5 & H6 & _).
  exists s'. auto 10.
Qed.

Lemma flagged_positions_closed_exactly_witness :
  exists s' : ExecutionSimulator,
    for_each [(0, MFE_TRAILING_STOP)]
      (fun item => _close_position (fst item) (tick_at "X" 95 2) (snd item)) book_after_95
    = (Ok tt, s')
    /\ active_positions (strategy_manager s') = []
    /\ trade_history s' = [mkTrade "CLOSE" 2 0 (Some MFE_TRAILING_STOP)].
Proof.
  destruct (flagged_positions_closed_exactly "X" 95 2 (1 # 2) [(0, MFE_TRAILING_STOP)]
              book_after_95 eq_refl eq_refl) as (s' & H1 & H2 & H3 & _).
  exists s'. split; [exact H1|]. split; [exact H2|exact H3].
Defined.

Lemma deref_alter (f : Position -> Position) (r x : ref) (h : list Position) :
  deref (alter f r h) x = deref h x
  \/ (x = r /\ deref (alter f r h) x = f (deref h x)).
Proof.
  unfold deref. rewrite list_lookup_alter. case_decide; [subst|now left].
  destruct (h !! x); simpl; [right|left]; auto.
Qed.

Lemma same_or_equal_closed (px : Q) (ts : Z) (reason : string) (r x : ref)
    (h : list Position) :
  same_or_equal (alter (closed_with px ts reason) r h) r x = same_or_equal h r x.
Proof.
  unfold same_or_equal. f_equal.
  destruct (deref_alter (closed_with px ts reason) r x h) as [->|[_ ->]];
    destruct (deref_alter (closed_with px ts reason) r r h) as [->|[_ ->]];
    reflexivity.
Qed.

(** X6.  [_close_position] on a position that is not active and equals
    no active position raises ValueError (the error of [list.remove]).
    The call is not atomic: the exit price, time and reason have
    already been written on the object; the active positions and the
    trade history are as they were. *)
Theorem _close_position_not_active (sym : string) (px : Q) (ts : Z) (r : ref)
    (reason : string) (s : ExecutionSimulator) :
  Forall (fun x => x <> r /\ Position_eqb (deref (heap s) x) (deref (heap s) r) = false)
    (active_positions (strategy_manager s)) ->
  let result := _close_position r (mkTick (Some sym) (Some px) (Some ts)) reason s in
  fst result = Raise (ValueError "list.remove(x): x not in list")
  /\ heap (snd result) !! r = closed_with px ts reason <$> heap s !! r
  /\ (forall x, x <> r -> heap (snd result) !! x = heap s !! x)
  /\ strategy_manager (snd result) = strategy_manager s
  /\ trade_history (snd result) = trade_history s.
Proof.
  intros Hall result. subst result. rewrite _close_position_eq. cbv zeta.
  rewrite remove_first_None.
  - simpl. split; [reflexivity|]. split; [apply list_lookup_alter_eq|].
    split; [|split; reflexivity]. intros x Hx. now apply list_lookup_alter_ne.
  - eapply Forall_impl; [exact Hall|]. intros x [Hne Heq].
    rewrite same_or_equal_closed. unfold same_or_equal. apply orb_false_intro.
    + now apply Nat.eqb_neq.
    + exact Heq.
Qed.

Lemma _close_position_not_active_witness :
  let result := _close_position 0 (tick_at "X" 95 2) "MANUAL" (book_of [long_at_100] []) in
  fst result = Raise (ValueError "list.remove(x): x not in list")
  /\ heap (snd result) !! 0 = Some (closed_with 95 2 "MANUAL" long_at_100)
  /\ trade_history (snd result) = [].
Proof.
  destruct (_close_position_not_active "X" 95 2 0 "MANUAL" (book_of [long_at_100] []))
    as (H1 & H2 & _ & _ & H3).
  - constructor.
  - split; [exact H1|]. split; [exact H2|exact H3].
Defined.

(** X7.  [_close_position] removes by equality, not by identity: when
    an active position [x] that equals the closed position [r] field by
    field comes first in the active list, it is [x] that leaves the
    list, while the exit attributes and the CLOSE entry are those of
    [r]; if [r] was active behind [x], it stays active. *)
Theorem _close_position_removes_first_equal (sym : string) (px : Q) (ts : Z) (r x : ref)
    (reason : string) (l1 l2 : list ref) (s : ExecutionSimulator) :
  active_positions (strategy_manager s) = l1 ++ x :: l2 ->
  Forall (fun y => y <> r /\ Position_eqb (deref (heap s) y) (deref (heap s) r) = false) l1 ->
  x <> r ->
  Position_eqb (deref (heap s) x) (deref (heap s) r) = true ->
  let result := _close_position r (mkTick (Some sym) (Some px) (Some ts)) reason s in
  fst result = Ok tt
  /\ active_positions (strategy_manager (snd result)) = l1 ++ l2
  /\ heap (snd result) !! x = heap s !! x
  /\ heap (snd result) !! r = closed_with px ts reason <$> heap s !! r
  /\ trade_history (snd result)
     = trade_history s ++ [mkTrade "CLOSE" ts r (Some reason)].
Proof.
  intros Hact Hl1 Hne Heq result. subst result. rewrite _close_position_eq. cbv zeta.
  rewrite Hact, remove_first_split.
  - simpl. split; [reflexivity|]. split; [reflexivity|].
    split; [apply list_lookup_alter_ne; congruence|].
    split; [apply list_lookup_alter_eq|reflexivity].
  - eapply Forall_impl; [exact Hl1|]. intros y [Hy Hyeq].
    rewrite same_or_equal_closed. unfold same_or_equal. apply orb_false_intro.
    + now apply Nat.eqb_neq.
    + exact Hyeq.
  - rewrite same_or_equal_closed. unfold same_or_equal. rewrite Heq. apply orb_true_r.
Qed.

Lemma _close_position_removes_first_equal_witness :
  let s := book_of [long_at_100; long_at_100] [0; 1] in
  let result := _close_position 1 (tick_at "X" 95 2) "MANUAL" s in
  fst result = Ok tt
  /\ active_positions (strategy_manager (snd result)) = [1]
  /\ heap (snd result) !! 0 = Some long_at_100
  /\ heap (snd result) !! 1 = Some (closed_with 95 2 "MANUAL" long_at_100).
Proof.
  destruct (_close_position_removes_first_equal "X" 95 2 1 0 "MANUAL" [] [1]
              (book_of [long_at_100; long_at_100] [0; 1]))
    as (H1 & H2 & H3 & H4 & _).
  - reflexivity.
  - constructor.
  - discriminate.
  - reflexivity.
  - split; [exact H1|]. split; [exact H2|]. split; [exact H3|exact H4].
Defined.

(** ** Opening *)

Lemma after_opens_nil (ts : Z) (s : ExecutionSimulator) : after_opens ts [] s = s.
Proof.
  unfold after_opens. simpl. rewrite !app_nil_r. now destruct s as [h [d a] pe t].
Qed.

Lemma after_opens_cons (ts : Z) (p : Position) (news : list Position)
    (s : ExecutionSimulator) :
  after_opens ts news (after_opens ts [p] s) = after_opens ts (p :: news) s.
Proof.
  unfold after_opens. simpl. rewrite length_app. simpl.
  rewrite <- !app_assoc. simpl. rewrite Nat.add_1_r. reflexivity.
Qed.

Lemma open_one_eq (sym : string) (px : Q) (ts : Z) (item : string * Signal)
    (s : ExecutionSimulator) :
  open_one (mkTick (Some sym) (Some px) (Some ts)) item s
  = (Ok tt, after_opens ts (option_list (position_of_signal sym px ts item)) s).
Proof.
  unfold open_one, position_of_signal.
  destruct (String.eqb _ "BUY"); [reflexivity|].
  destruct (String.eqb _ "SELL"); [reflexivity|].
  simpl. now rewrite after_opens_nil.
Qed.

(** The opens of a tick with its fields: one position per BUY or SELL
    signal, in the order of the signals. *)
Lemma open_signals (sym : string) (px : Q) (ts : Z) (signals : list (string * Signal))
    (s : ExecutionSimulator) :
  for_each signals (open_one (mkTick (Some sym) (Some px) (Some ts))) s
  = (Ok tt, after_opens ts (omap (position_of_signal sym px ts) signals) s).
Proof.
  revert s. induction signals as [|item signals IH]; intros s; simpl.
  - unfold ret. now rewrite after_opens_nil.
  - unfold bind. rewrite open_one_eq, IH.
    destruct (position_of_signal sym px ts item) as [p|]; simpl.
    + now rewrite after_opens_cons.
    + now rewrite after_opens_nil.
Qed.

(** ** The pipeline, stage by stage *)

(** A tick with its three fields, in a simulator with a threshold: the
    positions are updated; then either the exit evaluation raises, or
    the flagged positions are closed and either the dispatch raises or
    the signals are opened and the metrics of the final book returned. *)
Lemma process_tick_data_trace (sym : string) (px : Q) (ts : Z) (th : Q)
    (s : ExecutionSimulator) :
  risk_settings (portfolio_evaluator s) !! "mfe_exit_threshold" = Some th ->
  let tick := mkTick (Some sym) (Some px) (Some ts) in
  exists updated : ExecutionSimulator,
    update_positions tick s = (Ok tt, updated)
    /\ ((exists e, evaluate_exit_conditions updated = (Raise e, updated)
                   /\ process_tick_data tick s = (Raise e, updated))
        \/ exists flags closed,
             evaluate_exit_conditions updated = (Ok flags, updated)
             /\ for_each flags (close_one tick) updated = (Ok tt, closed)
             /\ ((exists e, process_tick tick closed = (Raise e, closed)
                            /\ process_tick_data tick s = (Raise e, closed))
                 \/ exists signals metrics,
                      let opened :=
                        after_opens ts (omap (position_of_signal sym px ts) signals) closed in
                      process_tick tick closed = (Ok signals, closed)
                      /\ calculate_portfolio_metrics opened = (Ok metrics, opened)
                      /\ process_tick_data tick s = (Ok metrics, opened))).
Proof.
  intros Hth tick.
  assert (Hvalid : valid_tick tick) by (repeat split; eexists; reflexivity).
  destruct (update_positions_priced tick px s eq_refl) as (h2 & Hupd & _).
  exists (set_heap h2 s). split; [exact Hupd|].
  pose proof (post_eq_evaluate_exit_conditions (set_heap h2 s)) as He.
  destruct (evaluate_exit_conditions (set_heap h2 s)) as [[flags|e] s2] eqn:Ee;
    simpl in He; subst s2.
  2:{ left. exists e. split; [reflexivity|].
      rewrite process_tick_data_unfold. unfold bind.
      rewrite validate_valid by assumption. cbv beta iota.
      rewrite Hupd. cbv beta iota. now rewrite Ee. }
  right.
  destruct (close_flags sym px ts th flags (set_heap h2 s) Hth Ee) as (closed & Hc & _).
  fold tick in Hc. exists flags, closed. split; [reflexivity|]. split; [exact Hc|].
  pose proof (post_eq_process_tick tick closed) as Hp.
  destruct (process_tick tick closed) as [[signals|e] s3] eqn:Ep;
    simpl in Hp; subst s3.
  2:{ left. exists e. split; [reflexivity|].
      rewrite process_tick_data_unfold. unfold bind.
      rewrite validate_valid by assumption. cbv beta iota.
      rewrite Hupd. cbv beta iota. rewrite Ee. cbv beta iota.
      rewrite Hc. cbv beta iota. now rewrite Ep. }
  right. exists signals. eexists. cbv zeta. split; [reflexivity|].
  split; [reflexivity|].
  rewrite process_tick_data_unfold. unfold bind.
  rewrite validate_valid by assumption. cbv beta iota.
  rewrite Hupd. cbv beta iota. rewrite Ee. cbv beta iota.
  rewrite Hc. cbv beta iota. rewrite Ep. cbv beta iota.
  unfold tick. rewrite open_signals. reflexivity.
Qed.

(** ** The book is consistent in every reachable state *)

Lemma process_tick_data_invalid (tick : Tick) (s : ExecutionSimulator) :
  ~ valid_tick tick -> snd (process_tick_data tick s) = s.
Proof.
  intros Hno. destruct tick as [[sym|] [px|] [ts|]]; try reflexivity.
  exfalso. apply Hno. repeat split; eexists; reflexivity.
Qed.

Lemma valid_tick_dec (tick : Tick) :
  (exists sym px ts, tick = mkTick (Some sym) (Some px) (Some ts)) \/ ~ valid_tick tick.
Proof.
  destruct tick as [[sym|] [px|] [ts|]]; [left; eauto|right..];
    intros (H1 & H2 & H3); simpl in *;
    (now apply is_Some_None in H1) || (now apply is_Some_None in H2)
    || (now apply is_Some_None in H3).
Qed.

Lemma book_ok_update (tick : Tick) (px : Q) (s updated : ExecutionSimulator) :
  tick_price tick = Some px ->
  update_positions tick s = (Ok tt, updated) ->
  book_ok s -> book_ok updated.
Proof.
  intros Hpx Hupd (Hth & Hwf & Hnd & Hobj).
  destruct (update_positions_priced tick px s Hpx) as (h2 & Hupd' & Hlen & Hh2).
  rewrite Hupd' in Hupd. injection Hupd as <-.
  split; [exact Hth|]. split; [unfold wf in *; simpl; now rewrite Hlen|].
  split; [exact Hnd|]. simpl. intros r p' Hr. rewrite Hh2 in Hr.
  assert (Hsame : exists p, heap s !! r = Some p
                            /\ exit_price p' = exit_price p
                            /\ exit_time p' = exit_time p
                            /\ exit_reason p' = exit_reason p).
  { destruct (heap s !! r) as [p|] eqn:Hp.
    - exists p. split; [reflexivity|]. case_bool_decide; simpl in Hr.
      + injection Hr as <-. unfold tick_update_if. now case_bool_decide.
      + now injection Hr as <-.
    - case_bool_decide; discriminate. }
  destruct Hsame as (p & Hp & E1 & E2 & E3).
  unfold is_open, is_closed. rewrite E1, E2, E3. exact (Hobj r p Hp).
Qed.

Lemma book_ok_close (sym : string) (px : Q) (ts : Z) (flags : list (ref * string))
    (s closed : ExecutionSimulator) :
  evaluate_exit_conditions s = (Ok flags, s) ->
  for_each flags (close_one (mkTick (Some sym) (Some px) (Some ts))) s = (Ok tt, closed) ->
  book_ok s -> book_ok closed.
Proof.
  intros Heval Hclose ([th Hth] & Hwf & Hnd & Hobj).
  destruct (close_flags sym px ts th flags s Hth Heval)
    as (c & Hc & Hact & _ & Hheap & _ & Hpe & Hlen).
  rewrite Hc in Hclose. injection Hclose as <-.
  split; [rewrite Hpe; now exists th|]. split.
  { unfold wf in *. rewrite Hact, Hlen. rewrite Forall_forall in *.
    intros r Hr. apply list_elem_of_filter in Hr as [_ Hr]. auto. }
  split; [rewrite Hact; now apply NoDup_filter|].
  intros r p' Hr. rewrite Hheap in Hr. rewrite Hact, list_elem_of_filter.
  destruct (heap s !! r) as [p|] eqn:Hp; [|case_bool_decide; discriminate].
  case_bool_decide as Hflag; simpl in Hr; injection Hr as <-.
  - right. split; [tauto|]. repeat split; eexists; reflexivity.
  - destruct (Hobj r p Hp) as [[Hin Hopen]|[Hout Hclosed]]; [left|right]; tauto.
Qed.

Lemma book_ok_opens (ts : Z) (news : list Position) (s : ExecutionSimulator) :
  Forall is_open news -> book_ok s -> book_ok (after_opens ts news s).
Proof.
  intros Hnews (Hth & Hwf & Hnd & Hobj).
  assert (Hfresh : forall r, r ∈ seq (length (heap s)) (length news) ->
                             r ∉ active_positions (strategy_manager s)).
  { intros r Hr Hin. apply elem_of_seq in Hr. unfold wf in Hwf.
    rewrite Forall_forall in Hwf. apply Hwf in Hin. lia. }
  split; [exact Hth|]. split.
  { unfold wf in *. simpl. rewrite length_app. apply Forall_app. split.
    - eapply Forall_impl; [exact Hwf|]. simpl. intros r Hr. lia.
    - apply Forall_forall. intros r Hr. apply elem_of_seq in Hr. lia. }
  split.
  { simpl. apply NoDup_app. split; [exact Hnd|]. split; [|apply NoDup_seq].
    intros r Hin Hr. now apply (Hfresh r). }
  simpl. intros r p Hr. rewrite elem_of_app.
  destruct (decide (r < length (heap s))) as [Hlt|Hge].
  - rewrite lookup_app_l in Hr by assumption.
    assert (Hno : r ∉ seq (length (heap s)) (length news))
      by (rewrite elem_of_seq; lia).
    destruct (Hobj r p Hr) as [[Hin Hopen]|[Hout Hclosed]]; [left|right]; tauto.
  - left. rewrite lookup_app_r in Hr by lia. split.
    + right. apply elem_of_seq. apply lookup_lt_Some in Hr. lia.
    + rewrite Forall_forall in Hnews. apply Hnews.
      eapply list_elem_of_lookup_2; eassumption.
Qed.

Lemma position_of_signal_open (sym : string) (px : Q) (ts : Z)
    (signals : list (string * Signal)) :
  Forall is_open (omap (position_of_signal sym px ts) signals).
Proof.
  apply Forall_forall. intros p Hp.
  apply list_elem_of_omap in Hp as (item & _ & Hitem).
  unfold position_of_signal in Hitem.
  destruct (String.eqb _ "BUY"); [injection Hitem as <-; repeat split|].
  destruct (String.eqb _ "SELL"); [injection Hitem as <-; repeat split|discriminate].
Qed.

Lemma book_ok_process_tick_data (tick : Tick) (s : ExecutionSimulator) :
  book_ok s -> book_ok (snd (process_tick_data tick s)).
Proof.
  intros Hok. destruct (valid_tick_dec tick) as [(sym & px & ts & ->)|Hno];
    [|now rewrite process_tick_data_invalid].
  assert (Hth : is_Some (risk_settings (portfolio_evaluator s) !! "mfe_exit_threshold"))
    by apply Hok.
  destruct Hth as [th Hth].
  destruct (process_tick_data_trace sym px ts th s Hth) as (updated & Hupd & Hcases).
  assert (Hu : book_ok updated) by (eapply book_ok_update; [|exact Hupd|exact Hok]; reflexivity).
  destruct Hcases as [(e & _ & ->)|(flags & closed & Heval & Hclose & Hcases)]; [exact Hu|].
  assert (Hc : book_ok closed) by (eapply book_ok_close; eassumption).
  destruct Hcases as [(e & _ & ->)|(signals & metrics & _ & _ & ->)]; [exact Hc|].
  simpl. apply book_ok_opens; [apply position_of_signal_open|exact Hc].
Qed.

Lemma reachable_book_ok (s : ExecutionSimulator) : reachable s -> book_ok s.
Proof.
  induction 1 as [settings pe Hinit|s sid f _ IH|s tick _ IH].
  - rewrite PortfolioEvaluator__init__unfold in Hinit.
    destruct (settings !! "mfe_exit_threshold") as [th|] eqn:Hth; [|discriminate].
    injection Hinit as <-. split; [now exists th|]. split; [constructor|].
    split; [constructor|]. intros r p Hr. discriminate.
  - exact IH.
  - now apply book_ok_process_tick_data.
Qed.

(** X8.  In every state that a simulator reaches, whatever the ticks
    and whatever the calls returned: the active positions are distinct
    objects; an object is active exactly when it has no exit price, no
    exit time and no exit reason, and every other object has all three.
    So a position is closed at most once, and a closed position is
    never active again. *)
Theorem active_iff_open (s : ExecutionSimulator) :
  reachable s ->
  NoDup (active_positions (strategy_manager s))
  /\ (forall r, r ∈ active_positions (strategy_manager s) -> is_Some (heap s !! r))
  /\ forall (r : ref) (p : Position),
       heap s !! r = Some p ->
       (r ∈ active_positions (strategy_manager s)
        /\ exit_price p = None /\ exit_time p = None /\ exit_reason p = None)
       \/ ((r ∉ active_positions (strategy_manager s))
           /\ is_Some (exit_price p) /\ is_Some (exit_time p) /\ is_Some (exit_reason p)).
Proof.
  intros Hs. destruct (reachable_book_ok s Hs) as (_ & Hwf & Hnd & Hobj).
  split; [exact Hnd|]. split; [|exact Hobj].
  intros r Hr. apply lookup_lt_is_Some. unfold wf in Hwf.
  rewrite Forall_forall in Hwf. now apply Hwf.
Qed.

Lemma active_iff_open_witness :
  NoDup (active_positions (strategy_manager
           (run_ticks [tick_at "X" 95 2] book_before_pullback))).
Proof.
  apply (active_iff_open (run_ticks [tick_at "X" 95 2] book_before_pullback)).
  apply run_ticks_reachable. unfold book_before_pullback. apply run_ticks_reachable.
  apply (reachable_register _ "A" buy_when_flat).
  apply (reachable_init {[ "mfe_exit_threshold" := (1 # 2)%Q ]}). reflexivity.
Defined.

(** ** Closed positions, the history and the configuration *)

#[global] Instance untouched_refl (r : ref) : Reflexive (untouched r).
Proof. intros s. repeat split; reflexivity. Qed.

#[global] Instance untouched_trans (r : ref) : Transitive (untouched r).
Proof.
  intros s1 s2 s3 (H1 & H2 & H3) (H4 & H5 & H6).
  split; [congruence|]. split; [congruence|]. now transitivity (active_positions (strategy_manager s2)).
Qed.

Lemma untouched_close_one (r : ref) (tick : Tick) (item : ref * string) :
  fst item <> r -> post (untouched r) (close_one tick item).
Proof.
  intros Hne.
  assert (Hupd : forall f, post (untouched r) (update_position (fst item) f)).
  { intros f s. split; [simpl; now apply list_lookup_alter_ne|].
    split; [simpl; apply length_alter|reflexivity]. }
  unfold close_one, _close_position.
  apply (post_bind (untouched r)); [apply (post_tick_item (untouched r))|intros px].
  apply (post_bind (untouched r)); [apply Hupd|intros _].
  apply (post_bind (untouched r)); [apply (post_tick_item (untouched r))|intros ts].
  apply (post_bind (untouched r)); [apply Hupd|intros _].
  apply (post_bind (untouched r)); [apply Hupd|intros _].
  apply (post_bind (untouched r)).
  { intros s. unfold list_remove, bind, gets.
    destruct (remove_first _ _) as [l'|] eqn:E; [|reflexivity].
    split; [reflexivity|]. split; [reflexivity|].
    simpl. now apply remove_first_subseteq in E. }
  intros _.
  apply (post_bind (untouched r)); [apply (post_tick_item (untouched r))|intros ts'].
  intros s. repeat split; reflexivity.
Qed.

#[global] Instance frozen_refl (r : ref) : Reflexive (frozen r).
Proof. intros s Hlt Hout. auto. Qed.

#[global] Instance frozen_trans (r : ref) : Transitive (frozen r).
Proof.
  intros s1 s2 s3 H12 H23 Hlt Hout.
  destruct (H12 Hlt Hout) as (E2 & Hout2 & Hlt2).
  destruct (H23 Hlt2 Hout2) as (E3 & Hout3 & Hlt3).
  split; [congruence|auto].
Qed.

Lemma frozen_eq {A} (r : ref) (m : M A) : post eq m -> post (frozen r) m.
Proof. apply post_weaken. intros s s' <-. reflexivity. Qed.

Lemma frozen_update_positions (r : ref) (tick : Tick) : post (frozen r) (update_positions tick).
Proof.
  intros s. destruct (update_positions_state tick s) as [->|(px & h' & _ & -> & Hh')];
    [reflexivity|].
  intros Hlt Hout. simpl. rewrite Hh', bool_decide_eq_false_2 by assumption.
  split; [reflexivity|]. split; [assumption|].
  apply lookup_lt_is_Some. rewrite Hh', bool_decide_eq_false_2 by assumption.
  now apply lookup_lt_is_Some.
Qed.

Lemma frozen_open_one (r : ref) (tick : Tick) (item : string * Signal) :
  post (frozen r) (open_one tick item).
Proof.
  assert (Hopen : forall sid sz dir, post (frozen r) (_open_position sid tick sz dir)).
  { intros sid sz dir s. destruct (_open_position_state sid tick sz dir s)
      as [->|(sym & px & ts & -> & ->)]; [reflexivity|].
    intros Hlt Hout. simpl. split; [now apply lookup_app_l|]. split.
    - rewrite elem_of_app, list_elem_of_singleton. intros [H|H]; [contradiction|lia].
    - rewrite length_app. lia. }
  unfold open_one. destruct (String.eqb _ "BUY"); [apply Hopen|].
  destruct (String.eqb _ "SELL"); [apply Hopen|]. apply (post_ret (frozen r)).
Qed.

Lemma frozen_process_tick_data (r : ref) (tick : Tick) :
  post (frozen r) (process_tick_data tick).
Proof.
  rewrite process_tick_data_unfold.
  apply (post_bind (frozen r)); [apply frozen_eq, post_eq_validate|intros _].
  apply (post_bind (frozen r)); [apply frozen_update_positions|intros _].
  intros s.
  apply (bind_at (frozen r));
    [apply frozen_eq, post_eq_evaluate_exit_conditions|intros flags Hflags].
  rewrite <- (post_eq_evaluate_exit_conditions s).
  assert (Heval : evaluate_exit_conditions s = (Ok flags, s)).
  { rewrite (surjective_pairing (evaluate_exit_conditions s)), Hflags.
    now rewrite <- (post_eq_evaluate_exit_conditions s). }
  apply (bind_at (frozen r)).
  { intros Hlt Hout.
    assert (Hu : untouched r s (snd (for_each flags (close_one tick) s))).
    { apply (post_for_each (untouched r)). intros item Hitem.
      apply untouched_close_one. intros Heq. apply Hout. subst r.
      destruct item as [x reason].
      exact (flagged_active flags s s Heval x reason Hitem). }
    destruct Hu as (E & Hlen & Hsub). split; [exact E|]. split; [|lia].
    intros Hin. apply Hout. now apply Hsub. }
  intros _ _. generalize (snd (for_each flags (close_one tick) s)). clear.
  apply (post_bind (frozen r)); [apply frozen_eq, post_eq_process_tick|intros signals].
  apply (post_bind (frozen r)).
  { apply (post_for_each (frozen r)). intros item _. apply frozen_open_one. }
  intros _. apply frozen_eq, post_eq_calculate_portfolio_metrics.
Qed.

(** X9.  A position object that is not active is out of the reach of
    every later tick: whatever ticks follow and whatever the calls
    return, its attributes (prices, excursions, exit data) stay as they
    are and it does not become active again.  With the preceding
    property, a closed position is immutable. *)
Theorem inactive_position_frozen
    (s : ExecutionSimulator) (ticks : list Tick) (r : ref) (p : Position) :
  heap s !! r = Some p ->
  r ∉ active_positions (strategy_manager s) ->
  heap (run_ticks ticks s) !! r = Some p
  /\ r ∉ active_positions (strategy_manager (run_ticks ticks s)).
Proof.
  revert s. induction ticks as [|tick ticks IH]; intros s Hr Hout; simpl.
  - auto.
  - destruct (frozen_process_tick_data r tick s) as (E & Hout' & _);
      [now apply lookup_lt_Some in Hr|assumption|].
    apply IH; [now rewrite E|assumption].
Qed.

Lemma inactive_position_frozen_witness :
  heap (run_ticks [tick_at "X" 200 3; tick_at "X" 50 4]
          (book_of [closed_with 95 2 "MFE_TRAILING_STOP" long_at_100] [])) !! 0
  = Some (closed_with 95 2 "MFE_TRAILING_STOP" long_at_100).
Proof.
  apply (inactive_position_frozen
           (book_of [closed_with 95 2 "MFE_TRAILING_STOP" long_at_100] [])
           [tick_at "X" 200 3; tick_at "X" 50 4] 0).
  - reflexivity.
  - apply not_elem_of_nil.
Defined.

#[global] Instance appends_only_refl : Reflexive appends_only.
Proof.
  intros s. split; [reflexivity|]. split; [reflexivity|].
  exists []. now rewrite app_nil_r.
Qed.

#[global] Instance appends_only_trans : Transitive appends_only.
Proof.
  intros s1 s2 s3 (H1 & H2 & a12 & H3) (H4 & H5 & a23 & H6).
  split; [congruence|]. split; [congruence|].
  exists (a12 ++ a23). now rewrite H6, H3, app_assoc.
Qed.

Lemma appends_only_same (s s' : ExecutionSimulator) :
  strategies (strategy_manager s') = strategies (strategy_manager s) ->
  portfolio_evaluator s' = portfolio_evaluator s ->
  trade_history s' = trade_history s ->
  appends_only s s'.
Proof.
  intros H1 H2 H3. split; [exact H1|]. split; [exact H2|].
  exists []. now rewrite app_nil_r.
Qed.

Lemma appends_only_eq {A} (m : M A) : post eq m -> post appends_only m.
Proof. apply post_weaken. intros s s' <-. reflexivity. Qed.

Lemma appends_only_update_positions (tick : Tick) :
  post appends_only (update_positions tick).
Proof.
  intros s. destruct (update_positions_state tick s) as [->|(px & h' & _ & -> & _)];
    [reflexivity|].
  now apply appends_only_same.
Qed.

Lemma appends_only_close_one (tick : Tick) (item : ref * string) :
  post appends_only (close_one tick item).
Proof.
  assert (Hupd : forall f, post appends_only (update_position (fst item) f))
    by (intros f s; now apply appends_only_same).
  unfold close_one, _close_position.
  apply (post_bind appends_only); [apply (post_tick_item appends_only)|intros px].
  apply (post_bind appends_only); [apply Hupd|intros _].
  apply (post_bind appends_only); [apply (post_tick_item appends_only)|intros ts].
  apply (post_bind appends_only); [apply Hupd|intros _].
  apply (post_bind appends_only); [apply Hupd|intros _].
  apply (post_bind appends_only).
  { intros s. unfold list_remove, bind, gets.
    destruct (remove_first _ _); [now apply appends_only_same|reflexivity]. }
  intros _.
  apply (post_bind appends_only); [apply (post_tick_item appends_only)|intros ts'].
  intros s. split; [reflexivity|]. split; [reflexivity|]. eexists. reflexivity.
Qed.

Lemma appends_only_open_one (tick : Tick) (item : string * Signal) :
  post appends_only (open_one tick item).
Proof.
  assert (Hopen : forall sid sz dir, post appends_only (_open_position sid tick sz dir)).
  { intros sid sz dir s. destruct (_open_position_state sid tick sz dir s)
      as [->|(sym & px & ts & -> & ->)]; [reflexivity|].
    split; [reflexivity|]. split; [reflexivity|]. eexists. reflexivity. }
  unfold open_one. destruct (String.eqb _ "BUY"); [apply Hopen|].
  destruct (String.eqb _ "SELL"); [apply Hopen|]. apply (post_ret appends_only).
Qed.

Lemma appends_only_process_tick_data (tick : Tick) :
  post appends_only (process_tick_data tick).
Proof.
  rewrite process_tick_data_unfold.
  apply (post_bind appends_only); [apply appends_only_eq, post_eq_validate|intros _].
  apply (post_bind appends_only); [apply appends_only_update_positions|intros _].
  apply (post_bind appends_only);
    [apply appends_only_eq, post_eq_evaluate_exit_conditions|intros flags].
  apply (post_bind appends_only).
  { apply (post_for_each appends_only). intros item _. apply appends_only_close_one. }
  intros _.
  apply (post_bind appends_only); [apply appends_only_eq, post_eq_process_tick|intros signals].
  apply (post_bind appends_only).
  { apply (post_for_each appends_only). intros item _. apply appends_only_open_one. }
  intros _. apply appends_only_eq, post_eq_calculate_portfolio_metrics.
Qed.

(** X10.  Ticks never touch the configuration and never rewrite the
    past: after any sequence of ticks, whatever the calls return, the
    strategy registry and the risk settings are the ones before, and
    the trade history is the history before followed by new entries. *)
Theorem history_append_only (ticks : list Tick) (s : ExecutionSimulator) :
  strategies (strategy_manager (run_ticks ticks s)) = strategies (strategy_manager s)
  /\ risk_settings (portfolio_evaluator (run_ticks ticks s))
     = risk_settings (portfolio_evaluator s)
  /\ exists added : list Trade,
       trade_history (run_ticks ticks s) = trade_history s ++ added.
Proof.
  assert (H : appends_only s (run_ticks ticks s)).
  { revert s. induction ticks as [|tick ticks IH]; intros s; simpl.
    - reflexivity.
    - transitivity (snd (process_tick_data tick s)); [|apply IH].
      apply appends_only_process_tick_data. }
  destruct H as (H1 & H2 & H3). split; [exact H1|]. split; [now rewrite H2|exact H3].
Qed.

(** ** Success and failure of a tick *)

Lemma bind_Ok_inv {A B} (m : M A) (f : A -> M B) (s s' : ExecutionSimulator) (b : B) :
  bind m f s = (Ok b, s') ->
  exists a s1, m s = (Ok a, s1) /\ f a s1 = (Ok b, s').
Proof.
  unfold bind. destruct (m s) as [[a|e] s1]; [eauto|discriminate].
Qed.

(** X11.  When [process_tick_data] returns, the metrics it returns are
    those of the book as the call leaves it, after the closes and the
    opens of this tick: total_positions counts the positions active at
    the end (those just opened included, those just closed not),
    net_exposure sums size * direction over them, and
    total_profit_loss sums the P&L of those whose current price is set
    and not zero, so that a position opened by this tick adds nothing. *)
Theorem metrics_of_final_book (tick : Tick) (s s' : ExecutionSimulator) (metrics : Metrics) :
  process_tick_data tick s = (Ok metrics, s') ->
  let positions := deref (heap s') <$> active_positions (strategy_manager s') in
  calculate_portfolio_metrics s' = (Ok metrics, s')
  /\ total_positions metrics = length (active_positions (strategy_manager s'))
  /\ (net_exposure metrics
      == Qsum ((fun p => size p * inject_Z (direction p)) <$> positions))%Q
  /\ (total_profit_loss metrics
      == Qsum (unrealized <$> filter truthy_price positions))%Q.
Proof.
  rewrite process_tick_data_unfold. intros H positions.
  apply bind_Ok_inv in H as (? & s1 & _ & H).
  apply bind_Ok_inv in H as (? & s2 & _ & H).
  apply bind_Ok_inv in H as (flags & s3 & _ & H).
  apply bind_Ok_inv in H as (? & s4 & _ & H).
  apply bind_Ok_inv in H as (signals & s5 & _ & H).
  apply bind_Ok_inv in H as (? & s6 & _ & H).
  assert (Hs : s' = s6).
  { pose proof (post_eq_calculate_portfolio_metrics s6) as Hm. now rewrite H in Hm. }
  subst s6. split; [exact H|].
  destruct (calculate_portfolio_metrics_eq s') as (m' & Hm' & H1 & H2 & H3 & _).
  rewrite H in Hm'. injection Hm' as <-. auto.
Qed.

Lemma metrics_of_final_book_witness :
  let result := process_tick_data (tick_at "X" 95 2) book_before_pullback in
  exists metrics, fst result = Ok metrics
    /\ total_positions metrics = length (active_positions (strategy_manager (snd result))).
Proof.
  intros result.
  assert (H : exists metrics, result = (Ok metrics, snd result))
    by (eexists; vm_compute; reflexivity).
  destruct H as (metrics & H). exists metrics. split; [now rewrite H|].
  exact (proj1 (proj2 (metrics_of_final_book _ _ _ _ H))).
Defined.

(** X12.  A tick that fails in the exit evaluation is not rolled back:
    for a tick with its fields, when the evaluation of the updated book
    raises, [process_tick_data] raises the same exception and leaves
    the book updated by the tick (current prices and excursions), with
    the active positions and the history as they were. *)
Theorem failed_evaluation_keeps_update (sym : string) (px : Q) (ts : Z)
    (s : ExecutionSimulator) (e : exn) :
  let tick := mkTick (Some sym) (Some px) (Some ts) in
  let updated := snd (update_positions tick s) in
  fst (evaluate_exit_conditions updated) = Raise e ->
  process_tick_data tick s = (Raise e, updated)
  /\ strategy_manager updated = strategy_manager s
  /\ trade_history updated = trade_history s
  /\ forall r p, heap s !! r = Some p ->
       r ∈ active_positions (strategy_manager s) ->
       symbol p = sym ->
       heap updated !! r = Some (tick_update px p).
Proof.
  intros tick updated He.
  destruct (update_positions_priced tick px s eq_refl) as (h2 & Hupd & _ & Hh2).
  assert (Hu : updated = set_heap h2 s) by (unfold updated; now rewrite Hupd).
  split; [|split; [now rewrite Hu|split; [now rewrite Hu|]]].
  - rewrite process_tick_data_unfold. unfold bind.
    rewrite validate_valid by (repeat split; eexists; reflexivity). cbv beta iota.
    fold tick. rewrite Hupd. cbv beta iota. rewrite <- Hu.
    pose proof (post_eq_evaluate_exit_conditions updated) as Hs.
    destruct (evaluate_exit_conditions updated) as [[flags|e'] s2]; simpl in *;
      [discriminate|]. now injection He as ->; subst s2.
  - intros r p Hr Hin Hsym. rewrite Hu. simpl. rewrite Hh2, Hr.
    rewrite bool_decide_eq_true_2 by assumption. simpl. unfold tick_update_if. simpl.
    now rewrite bool_decide_eq_true_2 by congruence.
Qed.

Lemma failed_evaluation_keeps_update_witness :
  let s := book_of [long_at_100; mkPosition "Y" 50 0 1 1 "B" None 0 0 None None None] [0; 1] in
  process_tick_data (tick_at "X" 110 1) s
  = (Raise TypeError, snd (update_positions (tick_at "X" 110 1) s)).
Proof.
  intros s.
  exact (proj1 (failed_evaluation_keeps_update "X" 110 1 s TypeError eq_refl)).
Defined.

(** After the update by a tick with a price, the active positions on
    the instrument of the tick have a current price. *)
Lemma priced_after_update (tick : Tick) (sym : string) (px : Q)
    (s updated : ExecutionSimulator) :
  tick_symbol tick = Some sym -> tick_price tick = Some px ->
  update_positions tick s = (Ok tt, updated) ->
  wf s ->
  Forall (fun r => priced (heap s) r \/ symbol_of (heap s) r = sym)
    (active_positions (strategy_manager s)) ->
  Forall (priced (heap updated)) (active_positions (strategy_manager updated)).
Proof.
  intros Hsym Hpx Hupd Hwf Hall.
  destruct (update_positions_priced tick px s Hpx) as (h2 & Hupd' & _ & Hh2).
  rewrite Hupd' in Hupd. injection Hupd as <-. simpl.
  unfold wf in Hwf. rewrite Forall_forall in *. intros r Hr.
  destruct (lookup_lt_is_Some_2 _ _ (Hwf r Hr)) as [p Hp].
  unfold priced, deref. rewrite Hh2, Hp, bool_decide_eq_true_2 by assumption. simpl.
  unfold tick_update_if. case_bool_decide as Hm; [now eexists|].
  destruct (Hall r Hr) as [Hpr|Hs].
  - unfold priced, deref in Hpr. now rewrite Hp in Hpr.
  - exfalso. apply Hm. rewrite Hsym. f_equal. unfold symbol_of, deref in Hs.
    now rewrite Hp in Hs.
Qed.

(** X13.  [process_tick_data] returns normally, with metrics, under
    conditions that can be read on the book and the tick: a threshold
    is configured, the tick has its three fields, every active
    reference is an object, every active position either has a current
    price or is on the instrument of the tick, and no registered
    strategy raises.  The positions flagged on the updated book are
    closed; the signals are the ones that [process_tick] returns on the
    book after these closes; one position is opened per BUY or SELL
    signal among them, and the history grows by the CLOSE entries
    followed by the OPEN entries. *)
Theorem process_tick_data_succeeds (sym : string) (px : Q) (ts : Z) (th : Q)
    (s : ExecutionSimulator) :
  let tick := mkTick (Some sym) (Some px) (Some ts) in
  risk_settings (portfolio_evaluator s) !! "mfe_exit_threshold" = Some th ->
  wf s ->
  Forall (fun r => priced (heap s) r \/ symbol_of (heap s) r = sym)
    (active_positions (strategy_manager s)) ->
  (forall item positions, item ∈ strategies (strategy_manager s) ->
                          exists o, snd item tick positions = Ok o) ->
  exists (flags : list (ref * string)) (signals : list (string * Signal))
         (metrics : Metrics) (s' : ExecutionSimulator),
    process_tick_data tick s = (Ok metrics, s')
    /\ fst (evaluate_exit_conditions (snd (update_positions tick s))) = Ok flags
    /\ fst (process_tick tick
              (snd (for_each flags
                      (fun item => _close_position (fst item) tick (snd item))
                      (snd (update_positions tick s)))))
       = Ok signals
    /\ active_positions (strategy_manager s')
       = filter (fun r => r ∉ flags.*1) (active_positions (strategy_manager s))
         ++ seq (length (heap s)) (length (omap (position_of_signal sym px ts) signals))
    /\ skipn (length (heap s)) (heap s') = omap (position_of_signal sym px ts) signals
    /\ trade_history s'
       = trade_history s
         ++ (close_entry ts <$> flags)
         ++ ((fun r => mkTrade "OPEN" ts r None) <$>
               seq (length (heap s)) (length (omap (position_of_signal sym px ts) signals))).
Proof.
  intros tick Hth Hwf Hall Htotal.
  destruct (process_tick_data_trace sym px ts th s Hth) as (updated & Hupd & Hcases).
  fold tick in Hupd, Hcases.
  assert (Hpe : portfolio_evaluator updated = portfolio_evaluator s
                /\ strategy_manager updated = strategy_manager s
                /\ trade_history updated = trade_history s
                /\ length (heap updated) = length (heap s)).
  { destruct (update_positions_priced tick px s eq_refl) as (h2 & Hupd' & Hlen & _).
    rewrite Hupd' in Hupd. injection Hupd as <-. auto. }
  destruct Hpe as (Hpe & Hsm & Hhist & Hlen).
  assert (Hth' : risk_settings (portfolio_evaluator updated) !! "mfe_exit_threshold" = Some th)
    by now rewrite Hpe.
  assert (Hpriced : Forall (priced (heap updated)) (active_positions (strategy_manager updated))).
  { eapply (priced_after_update tick sym px s); try eassumption; reflexivity. }
  destruct (evaluate_exit_conditions_eq th updated Hth') as [Hok _].
  specialize (Hok Hpriced).
  destruct Hcases as [(e & He & _)|(flags & closed & Heval & Hclose & Hcases)];
    [rewrite Hok in He; discriminate|].
  destruct (close_flags sym px ts th flags updated Hth' Heval)
    as (c & Hc & Hact & Hh & _ & Hstr & _ & Hlenc).
  fold tick in Hc. rewrite Hc in Hclose. injection Hclose as ->.
  assert (Hret : Forall (returns tick closed) (strategies (strategy_manager closed))).
  { apply Forall_forall. intros item Hitem. apply Htotal. now rewrite Hstr, Hsm in Hitem. }
  destruct Hcases as [(e & He & _)|(signals & metrics & Hp & _ & Hptd)].
  { rewrite process_tick_unfold, dispatch_all_return in He by assumption. discriminate. }
  cbv zeta in Hp, Hptd. exists flags, signals, metrics. eexists.
  split; [exact Hptd|]. rewrite (f_equal snd Hupd). simpl snd.
  split; [now rewrite Heval|].
  split.
  { change (for_each flags _ updated) with (for_each flags (close_one tick) updated).
    rewrite Hc. simpl snd. now rewrite Hp. }
  simpl.
  rewrite Hact, Hh, Hlenc, Hlen, Hsm, Hhist, <- app_assoc.
  split; [reflexivity|]. split; [|reflexivity].
  rewrite <- Hlen, <- Hlenc. now rewrite drop_app_length.
Qed.

Lemma process_tick_data_succeeds_witness :
  exists (flags : list (ref * string)) (signals : list (string * Signal))
         (metrics : Metrics) (s' : ExecutionSimulator),
    process_tick_data (tick_at "X" 95 2) book_before_pullback = (Ok metrics, s')
    /\ fst (evaluate_exit_conditions
              (snd (update_positions (tick_at "X" 95 2) book_before_pullback))) = Ok flags
    /\ fst (process_tick (tick_at "X" 95 2)
              (snd (for_each flags
                      (fun item => _close_position (fst item) (tick_at "X" 95 2) (snd item))
                      (snd (update_positions (tick_at "X" 95 2) book_before_pullback)))))
       = Ok signals
    /\ active_positions (strategy_manager s')
       = filter (fun r => r ∉ flags.*1)
           (active_positions (strategy_manager book_before_pullback))
         ++ seq (length (heap book_before_pullback))
              (length (omap (position_of_signal "X" 95 2) signals)).
Proof.
  destruct (process_tick_data_succeeds "X" 95 2 (1 # 2) book_before_pullback)
    as (flags & signals & metrics & s' & H1 & H2 & H3 & H4 & _).
  - reflexivity.
  - repeat constructor.
  - constructor; [left; now exists 110%Q|constructor].
  - intros item positions Hitem. apply list_elem_of_singleton in Hitem as ->.
    simpl. destruct positions; eexists; reflexivity.
  - exists flags, signals, metrics, s'. split; [exact H1|]. split; [exact H2|].
    split; [exact H3|exact H4].
Defined.

(** X14.  The opens of a tick: for a tick with its fields the loop over
    the signals cannot fail; it creates one position per signal whose
    action is BUY (long) or SELL (short), in the order of the signals,
    with the instrument, price and time of the tick, the size of the
    signal and the identifier of the strategy, no current price and
    zero excursions; a signal with any other action opens nothing. *)
Theorem signals_opened_in_order (sym : string) (px : Q) (ts : Z)
    (signals : list (string * Signal)) (s : ExecutionSimulator) :
  let tick := mkTick (Some sym) (Some px) (Some ts) in
  let news := omap (position_of_signal sym px ts) signals in
  let refs := seq (length (heap s)) (length news) in
  for_each signals
    (fun item =>
       let signal := snd item in
       if String.eqb (sig_action signal) "BUY"
       then _open_position (fst item) tick (sig_size signal) 1
       else if String.eqb (sig_action signal) "SELL"
       then _open_position (fst item) tick (sig_size signal) (-1)
       else ret tt) s
  = (Ok tt,
     mkExecutionSimulator (heap s ++ news)
       (mkStrategyManager (strategies (strategy_manager s))
          (active_positions (strategy_manager s) ++ refs))
       (portfolio_evaluator s)
       (trade_history s ++ ((fun r => mkTrade "OPEN" ts r None) <$> refs))).
Proof. intros tick news refs. apply open_signals. Qed.

(** ** Registration and dispatch together *)

(** X15.  Registering a strategy under a new identifier leaves the
    signals of the strategies already registered as they are and puts
    the answer of the new strategy last: if it returns a signal, the
    dispatch returns the former signals followed by that signal; if it
    returns [None], the former signals; and if it raises, the dispatch
    raises its exception, although every other strategy returned. *)
Theorem register_then_dispatch (tick : Tick) (sid : string) (f : strategy_func)
    (s : ExecutionSimulator) :
  sid ∉ (strategies (strategy_manager s)).*1 ->
  Forall (returns tick s) (strategies (strategy_manager s)) ->
  exists former : list (string * Signal),
    fst (process_tick tick s) = Ok former
    /\ fst (process_tick tick (snd (register_strategy sid f s)))
       = match f tick (strategy_positions s sid) with
         | Ok (Some signal) => Ok (former ++ [(sid, signal)])
         | Ok None => Ok former
         | Raise e => Raise e
         end.
Proof.
  intros Hnew Hall. exists (omap (emitted tick s) (strategies (strategy_manager s))).
  split; [now rewrite process_tick_unfold, dispatch_all_return|].
  set (s' := snd (register_strategy sid f s)).
  assert (Hreg : strategies (strategy_manager s')
                 = strategies (strategy_manager s) ++ [(sid, f)]).
  { unfold s'. simpl. now apply dict_set_new. }
  assert (Hall' : Forall (returns tick s') (strategies (strategy_manager s))) by exact Hall.
  assert (Hemit : omap (emitted tick s') (strategies (strategy_manager s))
                  = omap (emitted tick s) (strategies (strategy_manager s))) by reflexivity.
  rewrite process_tick_unfold, Hreg.
  destruct (f tick (strategy_positions s sid)) as [o|e] eqn:Hf.
  - rewrite dispatch_all_return.
    + simpl. rewrite omap_app, Hemit. simpl. unfold emitted at 2, answer. simpl.
      change (strategy_positions s' sid) with (strategy_positions s sid). rewrite Hf.
      destruct o; [reflexivity|now rewrite app_nil_r].
    + apply Forall_app. split; [exact Hall'|].
      constructor; [|constructor]. exists o. exact Hf.
  - now rewrite (dispatch_raise tick _ [] (sid, f) e [] s' Hall' Hf).
Qed.

Lemma register_then_dispatch_witness :
  exists former : list (string * Signal),
    fst (process_tick (tick_at "X" 100 1) (fresh_simulator [("A", idle)])) = Ok former
    /\ fst (process_tick (tick_at "X" 100 1)
              (snd (register_strategy "B" always_buy (fresh_simulator [("A", idle)]))))
       = Ok (former ++ [("B", buy_signal)]).
Proof.
  apply (register_then_dispatch (tick_at "X" 100 1) "B" always_buy
           (fresh_simulator [("A", idle)])).
  - simpl. rewrite not_elem_of_cons. split; [discriminate|apply not_elem_of_nil].
  - constructor; [now exists None|constructor].
Defined.
